(** * Boost.Signals connection core: embedding of boost/signals/connection.hpp

    The header declares the bound-object triple, the shared connection
    record, the [connection] handle, the pair stored in a signal's slot list,
    the two predicates used while a signal is invoked and the guard that
    notifies a bound object on scope exit.  Pointers are machine addresses
    ([Z]); a call through a function pointer is recorded in a trace. *)

From stdpp Require Import gmap list.

(** ** Pointers and calls *)

(** An untyped object pointer. *)
Definition ptr := Z.

(** A pointer to a function taking two untyped pointers. *)
Definition fn_ptr := Z.

(** One call [f(a1, a2)] through a function pointer. *)
Inductive call := Call (f : fn_ptr) (a1 a2 : ptr).

#[global] Instance call_eq_dec : EqDecision call.
Proof. solve_decision. Defined.

(** ** detail::bound_object *)

Module bound_object.

Record t := mk { obj : ptr; data : ptr; disconnect : fn_ptr }.

(** [operator==]: [obj == other.obj && data == other.data]. *)
Definition op_eq (this other : t) : bool :=
  (obj this =? obj other)%Z && (data this =? data other)%Z.

(** [operator<]: [obj < other.obj]. *)
Definition op_lt (this other : t) : bool :=
  (obj this <? obj other)%Z.

(** [operator!=]: the negation of [operator==]. *)
Definition op_ne (this other : t) : bool :=
  negb (op_eq this other).

(** [operator>]: the negation of [operator<]. *)
Definition op_gt (this other : t) : bool :=
  negb (op_lt this other).

(** The call [b.disconnect(b.obj, b.data)]. *)
Definition notify (b : t) : call :=
  Call (disconnect b) (obj b) (data b).

End bound_object.

(** ** detail::basic_connection *)

Module basic_connection.

Record t := mk {
  signal : ptr;
  signal_data : ptr;
  signal_disconnect : fn_ptr;
  blocked_ : bool;
  bound_objects : list bound_object.t
}.

(** The call [b.signal_disconnect(b.signal, b.signal_data)]. *)
Definition notify_signal (b : t) : call :=
  Call (signal_disconnect b) (signal b) (signal_data b).

Definition set_blocked (v : bool) (b : t) : t :=
  mk (signal b) (signal_data b) (signal_disconnect b) v (bound_objects b).

End basic_connection.

(** ** The shared world: bodies, and the trace of callbacks *)

(** A weak reference names the control block of a body; the block's number is
    never given to another body. *)
Definition body_id := nat.

(** Who made a call through a function pointer. *)
Inductive event :=
  | signal_notified (l : body_id) (c : call)
  | bound_notified (l : body_id) (c : call)
  | guard_notified (c : call).

#[global] Instance event_eq_dec : EqDecision event.
Proof. solve_decision. Defined.

(** [bodies] holds the bodies that a signal still keeps alive (the signal owns
    the only strong reference); [trace] lists the callbacks invoked so far,
    oldest first. *)
Record world := World {
  bodies : gmap body_id basic_connection.t;
  trace : list event
}.

(** Operations that read or change the world. *)
Definition M (A : Type) : Type := world → A * world.

Definition ret {A} (a : A) : M A := λ w, (a, w).

Definition bind {A B} (m : M A) (k : A → M B) : M B :=
  λ w, let '(a, w') := m w in k a w'.

Notation "'let*' x ':=' m 'in' k" := (bind m (λ x, k))
  (at level 10, x pattern, m at level 200, k at level 200).
Notation "m ';;' k" := (bind m (λ _, k))
  (at level 100, k at level 200, right associativity).

Definition eval {A} (m : M A) (w : world) : A := fst (m w).
Definition exec {A} (m : M A) (w : world) : world := snd (m w).

Definition emit (e : event) : M unit :=
  λ w, (tt, World (bodies w) (trace w ++ [e])).

Definition store (l : body_id) (b : basic_connection.t) : M unit :=
  λ w, (tt, World (<[l := b]> (bodies w)) (trace w)).

(** The signal lets go of body [l]. *)
Definition drop (l : body_id) : M unit :=
  λ w, (tt, World (delete l (bodies w)) (trace w)).

(** The list of bound objects of body [l] is emptied. *)
Definition clear_bound_objects (l : body_id) : M unit :=
  λ w, (tt, World
              (alter (λ b, basic_connection.mk
                             (basic_connection.signal b)
                             (basic_connection.signal_data b)
                             (basic_connection.signal_disconnect b)
                             (basic_connection.blocked_ b) []) l (bodies w))
              (trace w)).

Fixpoint for_each {A} (f : A → M unit) (xs : list A) : M unit :=
  match xs with
  | [] => ret tt
  | x :: xs' => f x ;; for_each f xs'
  end.

(** ** connection *)

Module connection.

(** [slot_] is the weak reference ([None]: it refers to nothing);
    [identity_] is the raw pointer used for comparisons. *)
Record t := mk { slot_ : option body_id; identity_ : ptr }.

(** [connection()], for the object at address [this]. *)
Definition default (this : ptr) : t :=
  {| slot_ := None; identity_ := this |}.

(** [connection(const connection& other)]. *)
Definition copy (other : t) : t :=
  {| slot_ := slot_ other; identity_ := identity_ other |}.

(** [operator==]. *)
Definition op_eq (this other : t) : bool :=
  (identity_ this =? identity_ other)%Z.

(** [operator<]. *)
Definition op_lt (this other : t) : bool :=
  (identity_ this <? identity_ other)%Z.

(** [operator=]: the new value of [*this]. *)
Definition assign (this other : t) : t :=
  {| slot_ := slot_ other; identity_ := identity_ other |}.

(** [swap]: the new values of [*this] and [other]. *)
Definition swap (this other : t) : t * t :=
  let '(this_slot, other_slot) := (slot_ other, slot_ this) in
  let '(this_identity, other_identity) := (identity_ other, identity_ this) in
  ({| slot_ := this_slot; identity_ := this_identity |},
   {| slot_ := other_slot; identity_ := other_identity |}).

Definition set_slot (v : option body_id) (c : t) : t :=
  {| slot_ := v; identity_ := identity_ c |}.

Definition set_identity (v : ptr) (c : t) : t :=
  {| slot_ := slot_ c; identity_ := v |}.

(** Modelled from the spec: the members [connected], [blocked], [block],
    [unblock] and [disconnect] are declared in the header and defined
    elsewhere.  Section 4.1 and 4.2 of the specification: a handle reaches
    its body through the weak reference, which resolves as long as the
    signal keeps the body. *)
Definition lock (c : t) : M (option (body_id * basic_connection.t)) :=
  λ w, (l ← slot_ c; b ← bodies w !! l; Some (l, b), w).

(** Modelled from the spec: [connected()] is true iff the body still
    exists. *)
Definition connected (c : t) : M bool :=
  let* r := lock c in
  ret (match r with Some _ => true | None => false end).

(** Modelled from the spec: [blocked()] reads the body's flag, and is
    false when the body is gone. *)
Definition blocked (c : t) : M bool :=
  let* r := lock c in
  ret (match r with
       | Some (_, b) => basic_connection.blocked_ b
       | None => false
       end).

(** Modelled from the spec: [block(should_block)] sets the body's flag,
    and does nothing when the body is gone. *)
Definition block (c : t) (should_block : bool) : M unit :=
  let* r := lock c in
  match r with
  | Some (l, b) => store l (basic_connection.set_blocked should_block b)
  | None => ret tt
  end.

(** Modelled from the spec: [unblock()] lifts the block. *)
Definition unblock (c : t) : M unit := block c false.

(** The operations a program can perform on handles. *)
Inductive handle_op :=
  | Block (c : t) (should_block : bool)
  | Unblock (c : t)
  | Disconnect (c : t)
  | Connected (c : t)
  | Blocked (c : t).

(** Modelled from the spec: the callbacks are code of the collaborators (the
    signal, the tracked objects).  [cb k w] is what the callee of the call [k]
    does when it is entered in world [w]: the operations on handles it
    performs, in order.  Any of them may be a [disconnect()], also on a handle
    to the attachment that is being disconnected. *)
Definition callbacks : Type := call → world → list handle_op.

(** One operation, [d] being what [disconnect()] does. *)
Definition step_with (d : t → M unit) (o : handle_op) : M unit :=
  match o with
  | Block c b => block c b
  | Unblock c => unblock c
  | Disconnect c => d c
  | Connected c => connected c ;; ret tt
  | Blocked c => blocked c ;; ret tt
  end.

Definition run_with (d : t → M unit) (ops : list handle_op) : M unit :=
  for_each (step_with d) ops.

(** A call through a function pointer: the call is recorded, then the callee
    runs. *)
Definition invoke_with (cb : callbacks) (d : t → M unit)
    (tag : call → event) (k : call) : M unit :=
  emit (tag k) ;; (λ w, run_with d (cb k w) w).

(** Modelled from the spec: what [disconnect()] does to a body [l] that is
    alive and not yet disconnecting, [b] being its record and [d] what a
    nested [disconnect()] does (section 4.1): it calls
    [signal_disconnect(signal, signal_data)] once, then [disconnect(obj,
    data)] of every entry of [bound_objects], then clears the list; the signal
    has then disconnected the slot and the body exists no longer. *)
Definition disconnect_body (cb : callbacks) (d : t → M unit)
    (l : body_id) (b : basic_connection.t) : M unit :=
  invoke_with cb d (signal_notified l) (basic_connection.notify_signal b) ;;
  for_each (λ o, invoke_with cb d (bound_notified l) (bound_object.notify o))
           (basic_connection.bound_objects b) ;;
  clear_bound_objects l ;;
  drop l.

(** Modelled from the spec: [disconnect()], sections 4.1, 5 and 9.  It does
    nothing when the body is gone, and nothing when the body is currently
    disconnecting ([stack] lists the bodies whose [disconnect()] is under
    way: the "currently disconnecting" flag).  A callee may call back into
    [disconnect()]; [fuel] bounds how deep such calls nest, and a body is
    disconnected at most once, so as many levels as there are bodies
    suffice. *)
Fixpoint disconnect_in (cb : callbacks) (fuel : nat) (stack : list body_id)
    (c : t) {struct fuel} : M unit :=
  let* r := lock c in
  match r with
  | None => ret tt
  | Some (l, b) =>
      if decide (l ∈ stack) then ret tt
      else
        match fuel with
        | O => ret tt
        | S fuel' =>
            disconnect_body cb (disconnect_in cb fuel' (l :: stack)) l b
        end
  end.

(** Modelled from the spec: [disconnect()] as a handle's member, called while
    no [disconnect()] is under way. *)
Definition disconnect (cb : callbacks) (c : t) : M unit :=
  λ w, disconnect_in cb (size (bodies w)) [] c w.

End connection.

(** ** Connection objects in memory *)

(** The connection objects alive at some moment, by address. *)
Abbreviation storage := (gmap ptr connection.t).

(** A default-constructed object comes to life at a free address. *)
Definition construct_default (this : ptr) (s : storage) : option storage :=
  match s !! this with
  | Some _ => None
  | None => Some (<[this := connection.default this]> s)
  end.

(** An object copy-constructed at a free address [this] from the object at
    [other]. *)
Definition construct_copy (this other : ptr) (s : storage) : option storage :=
  match s !! this, s !! other with
  | None, Some c => Some (<[this := connection.copy c]> s)
  | _, _ => None
  end.

(** [a.swap(b)] for the objects at [this] and [other], which may be one and
    the same object: the weak references are exchanged through a temporary,
    then the identities. *)
Definition swap_at (this other : ptr) (s : storage) : option storage :=
  tmp ← connection.slot_ <$> s !! this;
  v ← connection.slot_ <$> s !! other;
  let s1 := alter (connection.set_slot v) this s in
  let s2 := alter (connection.set_slot tmp) other s1 in
  tmp' ← connection.identity_ <$> s2 !! this;
  v' ← connection.identity_ <$> s2 !! other;
  let s3 := alter (connection.set_identity v') this s2 in
  Some (alter (connection.set_identity tmp') other s3).

(** ** Programs over handles *)

Definition step (cb : connection.callbacks) (o : connection.handle_op) : M unit :=
  connection.step_with (connection.disconnect cb) o.

Definition run (cb : connection.callbacks) (ops : list connection.handle_op) : M unit :=
  for_each (step cb) ops.

(** The calls body [l] has made to its signal's disconnect callback. *)
Definition is_signal_notified (l : body_id) (e : event) : bool :=
  match e with
  | signal_notified l' _ => bool_decide (l' = l)
  | _ => false
  end.

Definition signal_events (l : body_id) (tr : list event) : list event :=
  filter (λ e, is_signal_notified l e = true) tr.

Definition signal_calls (l : body_id) (tr : list event) : nat :=
  length (filter (λ e, is_signal_notified l e = true) tr).

(** The bodies whose [disconnect()] might still run: alive and not on the
    stack. *)
Definition pending (stack : list body_id) (w : world) : gset body_id :=
  dom (bodies w) ∖ list_to_set stack.

(** From [w] to [w'] no body has come to life, and no body that is gone or on
    the stack has called its signal. *)
Definition preserves (stack : list body_id) (w w' : world) : Prop :=
  dom (bodies w') ⊆ dom (bodies w)
  ∧ ∀ l, l ∈ stack ∨ bodies w !! l = None →
         signal_events l (trace w') = signal_events l (trace w).

(** The calls made by guards, oldest first. *)
Definition guard_calls (tr : list event) : list call :=
  omap (λ e, match e with guard_notified k => Some k | _ => None end) tr.

(** A callee for the example: entered from the signal side it disconnects
    the attachment again and blocks it; entered from a bound object it
    disconnects a copy of the handle. *)
Definition example_callbacks : connection.callbacks :=
  λ k _,
    match k with
    | Call 12%Z _ _ =>
        [connection.Disconnect (connection.mk (Some 0) 100%Z);
         connection.Block (connection.mk (Some 0) 100%Z) true]
    | Call 22%Z _ _ =>
        [connection.Disconnect (connection.copy (connection.mk (Some 0) 100%Z))]
    | _ => []
    end.

(** The handles made from [c0] by copy construction and by assignment. *)
Inductive copy_of (c0 : connection.t) : connection.t → Prop :=
  | copy_of_self : copy_of c0 c0
  | copy_of_copy c : copy_of c0 c → copy_of c0 (connection.copy c)
  | copy_of_assign c target : copy_of c0 c → copy_of c0 (connection.assign target c).

(** ** detail::connection_slot_pair *)

Module connection_slot_pair.

(** [any] is the type-erased slot. *)
Record t (any : Type) := mk { first : connection.t; second : any }.
Arguments mk {any}.
Arguments first {any}.
Arguments second {any}.

(** [connection_slot_pair()]: [first] is default-constructed where it lies,
    at address [first_addr]; [second] is the empty slot. *)
Definition default {any} (first_addr : ptr) (empty : any) : t any :=
  mk (connection.default first_addr) empty.

(** [connection_slot_pair(c, a)]. *)
Definition make {any} (c : connection.t) (a : any) : t any :=
  mk (connection.copy c) a.

(** [operator==]. *)
Definition op_eq {any} (this other : t any) : bool := false.

(** [operator<]. *)
Definition op_lt {any} (this other : t any) : bool := false.

End connection_slot_pair.

(** ** detail::is_disconnected and detail::is_callable *)

Definition is_disconnected {any} (c : connection_slot_pair.t any) : M bool :=
  let* a := connection.connected (connection_slot_pair.first c) in
  ret (negb a).

Definition is_callable {any} (c : connection_slot_pair.t any) : M bool :=
  let* a := connection.connected (connection_slot_pair.first c) in
  if a then
    let* b := connection.blocked (connection_slot_pair.first c) in
    ret (negb b)
  else ret false.

(** ** detail::auto_disconnect_bound_object *)

Module auto_disconnect_bound_object.

Record t := mk { binding : bound_object.t; auto_disconnect : bool }.

(** The constructor. *)
Definition ctor (b : bound_object.t) : M t :=
  ret {| binding := b; auto_disconnect := true |}.

(** [release()]: the new value of the guard. *)
Definition release (g : t) : M t :=
  ret {| binding := binding g; auto_disconnect := false |}.

(** The destructor. *)
Definition dtor (g : t) : M unit :=
  if auto_disconnect g
  then emit (guard_notified (bound_object.notify (binding g)))
  else ret tt.

Fixpoint release_times (n : nat) (g : t) : M t :=
  match n with
  | O => ret g
  | S n' => let* g' := release g in release_times n' g'
  end.

(** A guard's whole life: made for [b], released [n] times, destroyed. *)
Definition scope (b : bound_object.t) (n : nat) : M unit :=
  let* g := ctor b in
  let* g' := release_times n g in
  dtor g'.

End auto_disconnect_bound_object.

(** ** Statements on connection objects in memory *)

(** [a = b] for the objects at [this] and [other], which may be one object:
    the weak reference is assigned, then the identity. *)
Definition assign_at (this other : ptr) (s : storage) : option storage :=
  _ ← s !! this;
  v ← connection.slot_ <$> s !! other;
  let s1 := alter (connection.set_slot v) this s in
  v' ← connection.identity_ <$> s1 !! other;
  Some (alter (connection.set_identity v') this s1).

(** The destructor has an empty body: the object at [this] only ends its
    life, and its address becomes free. *)
Definition destroy (this : ptr) (s : storage) : option storage :=
  _ ← s !! this;
  Some (delete this s).

(** Programs that make, copy, assign and swap connection objects, and never
    destroy one. *)
Inductive storage_op :=
  | New (this : ptr)
  | Copy (this other : ptr)
  | Assign (this other : ptr)
  | Swap (this other : ptr).

Definition storage_step (o : storage_op) (s : storage) : option storage :=
  match o with
  | New p => construct_default p s
  | Copy p q => construct_copy p q s
  | Assign p q => assign_at p q s
  | Swap p q => swap_at p q s
  end.

Fixpoint storage_run (ops : list storage_op) (s : storage) : option storage :=
  match ops with
  | [] => Some s
  | o :: ops' => s' ← storage_step o s; storage_run ops' s'
  end.

(** Every identity held by a live object is the address of a live object. *)
Definition roots_live (s : storage) : Prop :=
  ∀ p c, s !! p = Some c → is_Some (s !! connection.identity_ c).

(** ** Guards, one after the other *)

(** A run of guard lifetimes: each entry is the bound object the guard is made
    for, and how often the guard is released before it is destroyed. *)
Definition scopes (gs : list (bound_object.t * nat)) : M unit :=
  for_each (λ g, auto_disconnect_bound_object.scope g.1 g.2) gs.

(** The calls a run of guard lifetimes is to make: one per guard that was
    never released, in order. *)
Fixpoint unreleased (gs : list (bound_object.t * nat)) : list event :=
  match gs with
  | [] => []
  | (b, O) :: gs' => guard_notified (bound_object.notify b) :: unreleased gs'
  | (_, S _) :: gs' => unreleased gs'
  end.

(** ** A slot list *)

(** The entries of a slot list that are callable in world [w], and those that
    are not disconnected in [w]. *)
Definition callable_in {any} (w : world)
    (ps : list (connection_slot_pair.t any)) : list (connection_slot_pair.t any) :=
  filter (λ p, eval (is_callable p) w = true) ps.

Definition prune_in {any} (w : world)
    (ps : list (connection_slot_pair.t any)) : list (connection_slot_pair.t any) :=
  filter (λ p, eval (is_disconnected p) w = false) ps.

(** ** A small concrete world *)

(** One attachment: body 0, blocked, with one bound object; and a handle to
    it whose identity is the address 100. *)
Definition example_body : basic_connection.t :=
  basic_connection.mk 10%Z 11%Z 12%Z true [bound_object.mk 20%Z 21%Z 22%Z].

Definition example_world : world :=
  World {[ 0 := example_body ]} [].

Definition example_handle : connection.t :=
  connection.mk (Some 0) 100%Z.

(** * Properties *)

(** ** Running operations *)

Lemma exec_bind {A B} (m : M A) (k : A → M B) (w : world) :
  exec (bind m k) w = exec (k (eval m w)) (exec m w).
Proof. unfold exec, eval, bind. destruct (m w); reflexivity. Qed.

Lemma eval_bind {A B} (m : M A) (k : A → M B) (w : world) :
  eval (bind m k) w = eval (k (eval m w)) (exec m w).
Proof. unfold exec, eval, bind. destruct (m w); reflexivity. Qed.

(** ** The weak reference *)

Lemma lock_pure (c : connection.t) (w : world) :
  exec (connection.lock c) w = w.
Proof. reflexivity. Qed.

Lemma lock_Some (c : connection.t) (w : world) l b :
  eval (connection.lock c) w = Some (l, b)
  ↔ connection.slot_ c = Some l ∧ bodies w !! l = Some b.
Proof.
  unfold eval, connection.lock; simpl.
  destruct (connection.slot_ c) as [l'|]; simpl; [|intuition congruence].
  destruct (bodies w !! l') as [b'|] eqn:E; simpl; intuition congruence.
Qed.

Lemma lock_None (c : connection.t) (w : world) :
  eval (connection.lock c) w = None
  ↔ ∀ l, connection.slot_ c = Some l → bodies w !! l = None.
Proof.
  unfold eval, connection.lock; simpl.
  destruct (connection.slot_ c) as [l'|]; simpl; [|split; congruence].
  destruct (bodies w !! l') as [b'|] eqn:E; simpl.
  - split; [done|]. intros H. specialize (H l' eq_refl). congruence.
  - split; [|done]. intros _ l [= <-]. done.
Qed.

Lemma connected_pure (c : connection.t) (w : world) :
  exec (connection.connected c) w = w.
Proof. reflexivity. Qed.

Lemma blocked_pure (c : connection.t) (w : world) :
  exec (connection.blocked c) w = w.
Proof. reflexivity. Qed.

Lemma connected_true (c : connection.t) (w : world) :
  eval (connection.connected c) w = true
  ↔ ∃ l b, connection.slot_ c = Some l ∧ bodies w !! l = Some b.
Proof.
  unfold connection.connected. rewrite eval_bind. simpl.
  destruct (eval (connection.lock c) w) as [[l b]|] eqn:E.
  - apply lock_Some in E. unfold eval, ret; simpl. split; [eauto|done].
  - unfold eval at 1, ret; simpl. split; [done|].
    intros (l & b & Hs & Hb).
    rewrite lock_None in E. rewrite (E l Hs) in Hb. done.
Qed.

Lemma connected_false (c : connection.t) (w : world) :
  eval (connection.connected c) w = false
  ↔ ∀ l, connection.slot_ c = Some l → bodies w !! l = None.
Proof.
  rewrite <- lock_None.
  unfold connection.connected. rewrite eval_bind.
  by destruct (eval (connection.lock c) w) as [[l b]|].
Qed.

(** Two handles with the same weak reference see the same body. *)
Lemma connected_same_slot (c c' : connection.t) (w : world) :
  connection.slot_ c' = connection.slot_ c →
  eval (connection.connected c') w = eval (connection.connected c) w.
Proof.
  intros E. unfold connection.connected, connection.lock, eval, bind, ret.
  simpl. by rewrite E.
Qed.

(** ** Bound objects *)

Lemma bound_object_op_eq_spec (a b : bound_object.t) :
  bound_object.op_eq a b = true
  ↔ bound_object.obj a = bound_object.obj b
    ∧ bound_object.data a = bound_object.data b.
Proof.
  unfold bound_object.op_eq.
  rewrite andb_true_iff, !Z.eqb_eq. reflexivity.
Qed.

(** C8: equality of bound objects looks at the (object, data) pair only:
    [a == b] holds iff the objects agree and the data agree, whatever the two
    disconnect callbacks are, and [a != b] holds iff [a == b] does not. *)
Theorem bound_object_equality_on_obj_data (a b : bound_object.t) :
  (bound_object.op_eq a b = true
   ↔ bound_object.obj a = bound_object.obj b
     ∧ bound_object.data a = bound_object.data b)
  ∧ (∀ f g : fn_ptr,
       bound_object.op_eq
         (bound_object.mk (bound_object.obj a) (bound_object.data a) f)
         (bound_object.mk (bound_object.obj b) (bound_object.data b) g)
       = bound_object.op_eq a b)
  ∧ (bound_object.op_ne a b = true ↔ ¬ bound_object.op_eq a b = true).
Proof.
  split; [apply bound_object_op_eq_spec|].
  split; [reflexivity|].
  unfold bound_object.op_ne.
  destruct (bound_object.op_eq a b); simpl; split; congruence.
Qed.

(** [a < b] compares the object addresses and nothing else. *)
Lemma bound_object_op_lt_spec (a b : bound_object.t) :
  bound_object.op_lt a b = true
  ↔ (bound_object.obj a < bound_object.obj b)%Z.
Proof. unfold bound_object.op_lt. apply Z.ltb_lt. Qed.

(** What [operator>] computes: [a > b] is returned exactly when the object
    address of [b] is not above that of [a]. *)
Lemma bound_object_op_gt_spec (a b : bound_object.t) :
  bound_object.op_gt a b = true
  ↔ (bound_object.obj b ≤ bound_object.obj a)%Z.
Proof.
  unfold bound_object.op_gt, bound_object.op_lt.
  rewrite negb_true_iff, Z.ltb_ge. reflexivity.
Qed.

(** C5, at the failing input: two bound objects with the same object address.
    [a < b] and [b < a] are false, yet [a > b] is returned true. *)
Theorem bound_object_gt_on_equal_addresses :
  let a := bound_object.mk 1%Z 0%Z 0%Z in
  let b := bound_object.mk 1%Z 0%Z 0%Z in
  bound_object.op_lt a b = false
  ∧ bound_object.op_lt b a = false
  ∧ bound_object.op_gt a b = true.
Proof. repeat split. Qed.

(** ** The pair stored in a slot list, and the two predicates *)

(** C10: the comparison operators of a connection-slot pair are dummies:
    [p == q] and [p < q] return false for all pairs, also when both are the
    same pair. *)
Theorem connection_slot_pair_comparisons_are_dummies
    {any} (p q : connection_slot_pair.t any) :
  connection_slot_pair.op_eq p q = false
  ∧ connection_slot_pair.op_lt p q = false
  ∧ connection_slot_pair.op_eq p p = false
  ∧ connection_slot_pair.op_lt p p = false.
Proof. repeat split. Qed.

(** C3: [is_disconnected] answers true iff the pair's connection is not
    connected; [is_callable] answers true iff it is connected and not
    blocked; neither changes the world.  A connected, blocked pair is
    neither callable nor disconnected. *)
Theorem predicates_follow_connection
    {any} (p : connection_slot_pair.t any) (w : world) :
  let c := connection_slot_pair.first p in
  (eval (is_disconnected p) w = true
   ↔ eval (connection.connected c) w = false)
  ∧ (eval (is_callable p) w = true
     ↔ eval (connection.connected c) w = true
       ∧ eval (connection.blocked c) w = false)
  ∧ exec (is_disconnected p) w = w
  ∧ exec (is_callable p) w = w
  ∧ (eval (connection.connected c) w = true →
     eval (connection.blocked c) w = true →
     eval (is_callable p) w = false ∧ eval (is_disconnected p) w = false).
Proof.
  intros c.
  assert (Hd : eval (is_disconnected p) w
               = negb (eval (connection.connected c) w)).
  { unfold is_disconnected. by rewrite eval_bind. }
  assert (Hc : eval (is_callable p) w
               = eval (connection.connected c) w
                 && negb (eval (connection.blocked c) w)).
  { unfold is_callable. rewrite eval_bind, connected_pure. fold c.
    destruct (eval (connection.connected c) w); [|reflexivity].
    by rewrite eval_bind. }
  rewrite Hd, Hc.
  split; [apply negb_true_iff|].
  split; [by rewrite andb_true_iff, negb_true_iff|].
  split; [unfold is_disconnected; by rewrite exec_bind|].
  split.
  - unfold is_callable. rewrite exec_bind, connected_pure. fold c.
    destruct (eval (connection.connected c) w); [|reflexivity].
    by rewrite exec_bind.
  - intros -> ->. done.
Qed.

Lemma predicates_follow_connection_witness :
  let p := connection_slot_pair.make example_handle tt in
  let c := connection_slot_pair.first p in
  eval (connection.connected c) example_world = true
  ∧ eval (connection.blocked c) example_world = true
  ∧ eval (is_callable p) example_world = false
  ∧ eval (is_disconnected p) example_world = false.
Proof.
  intros p c.
  assert (H1 : eval (connection.connected c) example_world = true)
    by (vm_compute; reflexivity).
  assert (H2 : eval (connection.blocked c) example_world = true)
    by (vm_compute; reflexivity).
  split; [exact H1|]. split; [exact H2|].
  destruct (predicates_follow_connection p example_world)
    as (_ & _ & _ & _ & H).
  exact (H H1 H2).
Defined.

(** ** The guard *)

Lemma release_times_S (n : nat) (g : auto_disconnect_bound_object.t) (w : world) :
  auto_disconnect_bound_object.release_times (S n) g w
  = (auto_disconnect_bound_object.mk
       (auto_disconnect_bound_object.binding g) false, w).
Proof.
  revert g. induction n as [|n IH]; intros g; [reflexivity|].
  change (auto_disconnect_bound_object.release_times (S (S n)) g w)
    with (auto_disconnect_bound_object.release_times (S n)
            (auto_disconnect_bound_object.mk
               (auto_disconnect_bound_object.binding g) false) w).
  by rewrite IH.
Qed.

Lemma scope_unfold (b : bound_object.t) (n : nat) (w : world) :
  auto_disconnect_bound_object.scope b n w
  = let r := auto_disconnect_bound_object.release_times n
               (auto_disconnect_bound_object.mk b true) w in
    auto_disconnect_bound_object.dtor r.1 r.2.
Proof.
  unfold auto_disconnect_bound_object.scope, bind,
    auto_disconnect_bound_object.ctor, ret.
  by destruct (auto_disconnect_bound_object.release_times n _ w).
Qed.

(** C4: making a guard for [b] calls nothing; a guard released at least once
    calls nothing when destroyed; a guard never released calls
    [b.disconnect(b.obj, b.data)] once when destroyed. *)
Theorem guard_notifies_unless_released
    (b : bound_object.t) (n : nat) (w : world) :
  exec (auto_disconnect_bound_object.ctor b) w = w
  ∧ exec (auto_disconnect_bound_object.scope b (S n)) w = w
  ∧ exec (auto_disconnect_bound_object.scope b 0) w
    = World (bodies w)
        (trace w ++ [guard_notified
                       (Call (bound_object.disconnect b)
                          (bound_object.obj b) (bound_object.data b))]).
Proof.
  split; [reflexivity|]. split; [|reflexivity].
  unfold exec. rewrite scope_unfold, release_times_S. reflexivity.
Qed.

(** ** Handles: copies, comparison, swap *)

Lemma copy_of_fields (c0 c : connection.t) :
  copy_of c0 c →
  connection.slot_ c = connection.slot_ c0
  ∧ connection.identity_ c = connection.identity_ c0.
Proof. induction 1 as [|c _ IH|c target _ IH]; simpl; auto. Qed.

Lemma op_eq_true (a b : connection.t) :
  connection.op_eq a b = true
  ↔ connection.identity_ a = connection.identity_ b.
Proof. apply Z.eqb_eq. Qed.

Lemma op_lt_true (a b : connection.t) :
  connection.op_lt a b = true
  ↔ (connection.identity_ a < connection.identity_ b)%Z.
Proof. apply Z.ltb_lt. Qed.

(** C2: two handles copied (by copy construction or assignment) from the
    same handle compare equal.  Equality and ordering compare the identity
    tokens and nothing else: for any two handles [a == b] holds iff the
    identities are equal and [a < b] iff the identity of [a] is below that of
    [b]; the world, in which the body may be alive, disconnected or
    destroyed, is not an input of either, no operation on the world changes
    a handle, and replacing the weak references changes neither result.
    Copy construction and assignment carry the identity over. *)
Theorem copies_compare_equal (c0 c1 c2 : connection.t) :
  copy_of c0 c1 → copy_of c0 c2 →
  connection.op_eq c1 c2 = true
  ∧ connection.identity_ c1 = connection.identity_ c0
  ∧ (∀ target,
       connection.identity_ (connection.copy c1) = connection.identity_ c1
       ∧ connection.identity_ (connection.assign target c1)
         = connection.identity_ c1)
  ∧ (∀ s1 s2,
       connection.op_eq (connection.set_slot s1 c1) (connection.set_slot s2 c2)
       = connection.op_eq c1 c2
       ∧ connection.op_lt (connection.set_slot s1 c1) (connection.set_slot s2 c2)
         = connection.op_lt c1 c2)
  ∧ (∀ a b : connection.t,
       (connection.op_eq a b = true
        ↔ connection.identity_ a = connection.identity_ b)
       ∧ (connection.op_lt a b = true
          ↔ (connection.identity_ a < connection.identity_ b)%Z))
  ∧ (∀ (a b : connection.t) s1 s2,
       connection.op_eq (connection.set_slot s1 a) (connection.set_slot s2 b)
       = connection.op_eq a b
       ∧ connection.op_lt (connection.set_slot s1 a) (connection.set_slot s2 b)
         = connection.op_lt a b)
  ∧ (∀ a target : connection.t,
       connection.identity_ (connection.copy a) = connection.identity_ a
       ∧ connection.identity_ (connection.assign target a)
         = connection.identity_ a
       ∧ connection.slot_ (connection.copy a) = connection.slot_ a
       ∧ connection.slot_ (connection.assign target a) = connection.slot_ a).
Proof.
  intros [S1 I1]%copy_of_fields [S2 I2]%copy_of_fields.
  assert (E : connection.op_eq c1 c2 = true).
  { apply op_eq_true. congruence. }
  split; [done|]. split; [done|]. split; [done|]. split; [done|].
  split; [|done].
  intros a b. split; [apply op_eq_true|apply op_lt_true].
Qed.

Lemma copies_compare_equal_witness :
  let c1 := connection.copy example_handle in
  let c2 := connection.assign (connection.default 7%Z) (connection.copy example_handle) in
  copy_of example_handle c1 ∧ copy_of example_handle c2
  ∧ connection.op_eq c1 c2 = true
  ∧ connection.op_eq c1 (connection.default 7%Z) = false
  ∧ connection.op_lt (connection.default 7%Z) c1 = true.
Proof.
  intros c1 c2.
  assert (H1 : copy_of example_handle c1)
    by apply copy_of_copy, copy_of_self.
  assert (H2 : copy_of example_handle c2)
    by apply copy_of_assign, copy_of_copy, copy_of_self.
  destruct (copies_compare_equal example_handle c1 c2 H1 H2)
    as (E & _ & _ & _ & I & _).
  split; [exact H1|]. split; [exact H2|]. split; [exact E|].
  split.
  - destruct (connection.op_eq c1 (connection.default 7%Z)) eqn:D; [|reflexivity].
    apply (proj1 (I c1 (connection.default 7%Z))) in D. discriminate D.
  - apply (proj2 (I (connection.default 7%Z) c1)). reflexivity.
Defined.

Lemma swap_exchanges (a b : connection.t) : connection.swap a b = (b, a).
Proof. by destruct a, b. Qed.

Lemma swap_at_exchanges (s : storage) (p q : ptr) (a b : connection.t) :
  s !! p = Some a → s !! q = Some b →
  ∃ s', swap_at p q s = Some s'
        ∧ s' !! p = Some b ∧ s' !! q = Some a
        ∧ ∀ r, r ≠ p → r ≠ q → s' !! r = s !! r.
Proof.
  intros Hp Hq. unfold swap_at. rewrite Hp, Hq. simpl.
  rewrite !lookup_alter, Hp, Hq.
  destruct a as [sa ia], b as [sb ib].
  destruct (decide (p = q)) as [->|Hne].
  - assert (sa = sb ∧ ia = ib) as [-> ->] by (split; congruence).
    repeat case_decide; try congruence. simpl.
    eexists; split; [reflexivity|].
    rewrite !lookup_alter, Hq.
    repeat case_decide; try congruence.
    repeat split; try done.
    intros r Hr _. rewrite !lookup_alter.
    repeat case_decide; congruence.
  - repeat case_decide; try congruence. simpl.
    eexists; split; [reflexivity|].
    rewrite !lookup_alter, Hp, Hq.
    repeat case_decide; try congruence.
    repeat split; try done.
    intros r Hr1 Hr2. rewrite !lookup_alter.
    repeat case_decide; congruence.
Qed.

(** C9: [a.swap(b)] exchanges the (weak reference, identity) pairs of [a]
    and [b]; swapping twice restores both; after the swap [a] compares equal
    to every copy of [b] taken before.  The same holds for two objects in
    memory, which may be one object. *)
Theorem swap_has_value_semantics (a b : connection.t) :
  connection.swap a b = (b, a)
  ∧ (connection.slot_ (connection.swap a b).1 = connection.slot_ b
     ∧ connection.identity_ (connection.swap a b).1 = connection.identity_ b
     ∧ connection.slot_ (connection.swap a b).2 = connection.slot_ a
     ∧ connection.identity_ (connection.swap a b).2 = connection.identity_ a)
  ∧ connection.swap (connection.swap a b).1 (connection.swap a b).2 = (a, b)
  ∧ (∀ c, copy_of b c → connection.op_eq (connection.swap a b).1 c = true)
  ∧ (∀ c, copy_of a c → connection.op_eq (connection.swap a b).2 c = true)
  ∧ (∀ (s : storage) (p q : ptr),
       s !! p = Some a → s !! q = Some b →
       ∃ s1, swap_at p q s = Some s1
             ∧ s1 !! p = Some b ∧ s1 !! q = Some a
             ∧ (∀ r, r ≠ p → r ≠ q → s1 !! r = s !! r)
             ∧ swap_at p q s1 = Some s).
Proof.
  rewrite swap_exchanges. simpl. rewrite swap_exchanges.
  split; [done|]. split; [done|]. split; [done|].
  split; [intros c [_ I]%copy_of_fields; by apply op_eq_true|].
  split; [intros c [_ I]%copy_of_fields; by apply op_eq_true|].
  intros s p q Hp Hq.
  destruct (swap_at_exchanges s p q a b Hp Hq) as (s1 & E1 & Hp1 & Hq1 & Hr1).
  exists s1. repeat split; try done.
  destruct (swap_at_exchanges s1 p q b a Hp1 Hq1) as (s2 & E2 & Hp2 & Hq2 & Hr2).
  rewrite E2. f_equal. apply map_eq. intros r.
  destruct (decide (r = p)) as [->|Hrp]; [congruence|].
  destruct (decide (r = q)) as [->|Hrq]; [congruence|].
  rewrite Hr2, Hr1 by done. done.
Qed.

Lemma swap_has_value_semantics_witness :
  let a := example_handle in
  let b := connection.default 32%Z in
  let s : storage := {[ 16%Z := a; 32%Z := b ]} in
  s !! 16%Z = Some a ∧ s !! 32%Z = Some b
  ∧ copy_of b (connection.copy b)
  ∧ connection.op_eq (connection.swap a b).1 (connection.copy b) = true
  ∧ ∃ s1, swap_at 16%Z 32%Z s = Some s1
          ∧ s1 !! 16%Z = Some b ∧ s1 !! 32%Z = Some a.
Proof.
  intros a b s.
  assert (Ha : s !! 16%Z = Some a) by (vm_compute; reflexivity).
  assert (Hb : s !! 32%Z = Some b) by (vm_compute; reflexivity).
  assert (Hc : copy_of b (connection.copy b))
    by apply copy_of_copy, copy_of_self.
  destruct (swap_has_value_semantics a b) as (_ & _ & _ & E & _ & S).
  destruct (S s 16%Z 32%Z Ha Hb) as (s1 & E1 & Hp & Hq & _).
  split; [exact Ha|]. split; [exact Hb|]. split; [exact Hc|].
  split; [exact (E _ Hc)|].
  exists s1. split; [exact E1|]. split; [exact Hp|exact Hq].
Defined.

(** ** Default construction *)

Lemma no_body_is_inert (c : connection.t) (w : world) :
  connection.slot_ c = None →
  eval (connection.connected c) w = false
  ∧ eval (connection.blocked c) w = false
  ∧ (∀ should_block, exec (connection.block c should_block) w = w)
  ∧ exec (connection.unblock c) w = w
  ∧ (∀ cb, exec (connection.disconnect cb c) w = w).
Proof.
  intros E.
  assert (D : ∀ cb fuel stack, connection.disconnect_in cb fuel stack c w = (tt, w)).
  { intros cb fuel stack.
    destruct fuel; unfold connection.disconnect_in, connection.lock, bind, ret;
      simpl; rewrite E; reflexivity. }
  unfold connection.disconnect. unfold exec at 3. setoid_rewrite D.
  unfold connection.connected, connection.blocked, connection.unblock,
    connection.block, connection.lock, eval, exec, bind, ret.
  simpl. rewrite E. simpl. done.
Qed.





(** ** Blocking *)

Lemma block_alive (c : connection.t) (sb : bool) (w : world) l b :
  connection.slot_ c = Some l → bodies w !! l = Some b →
  connection.block c sb w
  = (tt, World (<[l := basic_connection.set_blocked sb b]> (bodies w))
               (trace w)).
Proof.
  intros Hs Hb.
  unfold connection.block, connection.lock, bind. simpl.
  rewrite Hs. simpl. rewrite Hb. reflexivity.
Qed.

Lemma block_dead (c : connection.t) (sb : bool) (w : world) :
  eval (connection.connected c) w = false →
  connection.block c sb w = (tt, w).
Proof.
  rewrite connected_false. intros H.
  unfold connection.block, connection.lock, bind. simpl.
  destruct (connection.slot_ c) as [l|]; [|reflexivity].
  simpl. rewrite (H l eq_refl). reflexivity.
Qed.

(** [block] changes neither which bodies are alive nor the trace. *)
Lemma block_frame (c : connection.t) (sb : bool) (w : world) :
  (∀ l, is_Some (bodies (exec (connection.block c sb) w) !! l)
        ↔ is_Some (bodies w !! l))
  ∧ trace (exec (connection.block c sb) w) = trace w.
Proof.
  destruct (eval (connection.connected c) w) eqn:E.
  - apply connected_true in E as (l & b & Hs & Hb).
    unfold exec. rewrite (block_alive c sb w l b Hs Hb). simpl.
    split; [|done]. intros l'.
    destruct (decide (l = l')) as [<-|Hne].
    + rewrite lookup_insert_eq, Hb. split; eauto.
    + by rewrite lookup_insert_ne.
  - unfold exec. rewrite (block_dead c sb w E). done.
Qed.

Lemma connected_is_Some (c : connection.t) (w w' : world) :
  (∀ l, is_Some (bodies w' !! l) ↔ is_Some (bodies w !! l)) →
  eval (connection.connected c) w' = eval (connection.connected c) w.
Proof.
  intros H.
  destruct (eval (connection.connected c) w) eqn:E.
  - apply connected_true in E as (l & b & Hs & Hb).
    destruct (proj2 (H l)) as [b' Hb']; [eauto|].
    apply connected_true; eauto.
  - rewrite connected_false in E. apply connected_false.
    intros l Hs. specialize (E l Hs).
    apply eq_None_not_Some. rewrite H, E. by intros [? ?].
Qed.

Lemma blocked_after_block (c : connection.t) (sb : bool) (w : world) :
  eval (connection.connected c) w = true →
  eval (connection.blocked c) (exec (connection.block c sb) w) = sb.
Proof.
  intros (l & b & Hs & Hb)%connected_true.
  unfold exec. rewrite (block_alive c sb w l b Hs Hb). simpl.
  unfold connection.blocked, connection.lock, eval, bind, ret. simpl.
  rewrite Hs. simpl. rewrite lookup_insert_eq. reflexivity.
Qed.

(** C6: while the body of [c] is alive, [blocked()] is true after
    [block(true)] and false after [unblock()]; [block(true)], [block(false)]
    and [unblock()] leave [connected()] as it was, for [c] and for every
    other handle. *)
Theorem block_toggles_blocked_only (c : connection.t) (w : world) :
  eval (connection.connected c) w = true →
  eval (connection.blocked c) (exec (connection.block c true) w) = true
  ∧ eval (connection.blocked c) (exec (connection.unblock c) w) = false
  ∧ eval (connection.connected c) (exec (connection.block c true) w) = true
  ∧ eval (connection.connected c) (exec (connection.block c false) w) = true
  ∧ eval (connection.connected c) (exec (connection.unblock c) w) = true
  ∧ (∀ c' should_block,
       eval (connection.connected c') (exec (connection.block c should_block) w)
       = eval (connection.connected c') w
       ∧ eval (connection.connected c') (exec (connection.unblock c) w)
         = eval (connection.connected c') w).
Proof.
  intros H.
  assert (F : ∀ c' sb,
             eval (connection.connected c') (exec (connection.block c sb) w)
             = eval (connection.connected c') w).
  { intros c' sb. apply connected_is_Some, block_frame. }
  unfold connection.unblock.
  rewrite !blocked_after_block, !F by done.
  repeat split; done.
Qed.

Lemma block_toggles_blocked_only_witness :
  eval (connection.connected example_handle) example_world = true
  ∧ eval (connection.blocked example_handle)
      (exec (connection.block example_handle true) example_world) = true
  ∧ eval (connection.blocked example_handle)
      (exec (connection.unblock example_handle) example_world) = false
  ∧ eval (connection.connected example_handle)
      (exec (connection.unblock example_handle) example_world) = true.
Proof.
  assert (H : eval (connection.connected example_handle) example_world = true)
    by (vm_compute; reflexivity).
  destruct (block_toggles_blocked_only example_handle example_world H)
    as (H1 & H2 & _ & _ & H3 & _).
  split; [exact H|]. split; [exact H1|]. split; [exact H2|exact H3].
Defined.

(** ** Disconnecting *)

Lemma exec_seq {A B} (m : M A) (k : M B) (w : world) :
  exec (m ;; k) w = exec k (exec m w).
Proof. by rewrite exec_bind. Qed.

Lemma exec_for_each_cons {A} (f : A → M unit) (x : A) (xs : list A) (w : world) :
  exec (for_each f (x :: xs)) w = exec (for_each f xs) (exec (f x) w).
Proof. simpl. by rewrite exec_bind. Qed.

Lemma signal_events_app (l : body_id) (t1 t2 : list event) :
  signal_events l (t1 ++ t2) = signal_events l t1 ++ signal_events l t2.
Proof. unfold signal_events. by rewrite filter_app. Qed.

Lemma signal_events_one (l : body_id) (e : event) :
  signal_events l [e] = if is_signal_notified l e then [e] else [].
Proof.
  unfold signal_events. destruct (is_signal_notified l e) eqn:E.
  - by rewrite filter_cons_True.
  - rewrite filter_cons_False; [done|]. by rewrite E.
Qed.

Lemma signal_calls_events (l : body_id) (tr : list event) :
  signal_calls l tr = length (signal_events l tr).
Proof. reflexivity. Qed.

(** *** What every run preserves *)

Lemma preserves_refl (st : list body_id) (w : world) : preserves st w w.
Proof. split; [done|]. done. Qed.

Lemma preserves_dead (st : list body_id) (w w' : world) (l : body_id) :
  preserves st w w' → bodies w !! l = None → bodies w' !! l = None.
Proof.
  intros [Hd _] Hl. apply not_elem_of_dom. apply not_elem_of_dom in Hl.
  set_solver.
Qed.

Lemma preserves_trans (st : list body_id) (w w1 w2 : world) :
  preserves st w w1 → preserves st w1 w2 → preserves st w w2.
Proof.
  intros H1 H2. split.
  - destruct H1 as [H1 _], H2 as [H2 _]. set_solver.
  - intros l Hl. destruct H2 as [_ H2]. rewrite H2.
    + by apply H1.
    + destruct Hl as [Hl|Hl]; [by left|right].
      by apply (preserves_dead st w w1).
Qed.

Lemma preserves_weaken (st st' : list body_id) (w w' : world) :
  (∀ l, l ∈ st' → l ∈ st) → preserves st w w' → preserves st' w w'.
Proof.
  intros Hs [H1 H2]. split; [done|].
  intros l [Hl|Hl]; apply H2; auto.
Qed.

Lemma preserves_frame (st : list body_id) (w w' : world) :
  dom (bodies w') ⊆ dom (bodies w) → trace w' = trace w → preserves st w w'.
Proof. intros Hd Ht. split; [done|]. intros l _. by rewrite Ht. Qed.

Lemma preserves_emit (st : list body_id) (e : event) (w : world) :
  (∀ l, l ∈ st ∨ bodies w !! l = None → is_signal_notified l e = false) →
  preserves st w (exec (emit e) w).
Proof.
  intros He. split; [done|]. intros l Hl. simpl.
  rewrite signal_events_app, signal_events_one, (He l Hl).
  by rewrite app_nil_r.
Qed.

Lemma block_dom (c : connection.t) (sb : bool) (w : world) :
  dom (bodies (exec (connection.block c sb) w)) = dom (bodies w).
Proof.
  destruct (block_frame c sb w) as [H _].
  apply set_eq. intros l. rewrite !elem_of_dom. apply H.
Qed.

Lemma preserves_block (st : list body_id) (c : connection.t) (sb : bool) (w : world) :
  preserves st w (exec (connection.block c sb) w).
Proof.
  apply preserves_frame.
  - by rewrite block_dom.
  - apply block_frame.
Qed.

Lemma preserves_for_each {A} (st : list body_id) (f : A → M unit) (xs : list A) :
  (∀ x w, preserves st w (exec (f x) w)) →
  ∀ w, preserves st w (exec (for_each f xs) w).
Proof.
  intros Hf. induction xs as [|x xs IH]; intros w.
  - apply preserves_refl.
  - rewrite exec_for_each_cons.
    by apply (preserves_trans st w (exec (f x) w)).
Qed.

Lemma preserves_step_with (st : list body_id) (d : connection.t → M unit) :
  (∀ c w, preserves st w (exec (d c) w)) →
  ∀ o w, preserves st w (exec (connection.step_with d o) w).
Proof.
  intros Hd o w. destruct o as [c sb|c|c|c|c]; simpl.
  - apply preserves_block.
  - apply preserves_block.
  - apply Hd.
  - apply preserves_refl.
  - apply preserves_refl.
Qed.

Lemma preserves_run_with (st : list body_id) (d : connection.t → M unit) :
  (∀ c w, preserves st w (exec (d c) w)) →
  ∀ ops w, preserves st w (exec (connection.run_with d ops) w).
Proof.
  intros Hd ops. apply preserves_for_each. by apply preserves_step_with.
Qed.

Lemma exec_invoke_with (cb : connection.callbacks) (d : connection.t → M unit)
    (tag : call → event) (k : call) (w : world) :
  exec (connection.invoke_with cb d tag k) w
  = exec (connection.run_with d (cb k (exec (emit (tag k)) w)))
         (exec (emit (tag k)) w).
Proof. unfold connection.invoke_with. by rewrite exec_seq. Qed.

Lemma preserves_invoke_with (st : list body_id) (cb : connection.callbacks)
    (d : connection.t → M unit) (tag : call → event) (k : call) (w : world) :
  (∀ c w, preserves st w (exec (d c) w)) →
  (∀ l, l ∈ st ∨ bodies w !! l = None → is_signal_notified l (tag k) = false) →
  preserves st w (exec (connection.invoke_with cb d tag k) w).
Proof.
  intros Hd He. rewrite exec_invoke_with.
  apply (preserves_trans st w (exec (emit (tag k)) w)).
  - by apply preserves_emit.
  - by apply preserves_run_with.
Qed.

(** *** One [disconnect()] of a body that is alive *)

Lemma disconnect_in_eq (cb : connection.callbacks) (fuel : nat)
    (st : list body_id) (c : connection.t) (w : world) :
  connection.disconnect_in cb fuel st c w
  = match eval (connection.lock c) w with
    | None => (tt, w)
    | Some (l, b) =>
        if decide (l ∈ st) then (tt, w)
        else match fuel with
             | O => (tt, w)
             | S fuel' =>
                 connection.disconnect_body cb
                   (connection.disconnect_in cb fuel' (l :: st)) l b w
             end
    end.
Proof.
  destruct fuel; simpl; unfold bind, eval, connection.lock; simpl;
    destruct (connection.slot_ c ≫= _) as [[l b]|]; try done;
    by destruct (decide (l ∈ st)).
Qed.

Lemma exec_disconnect_body (cb : connection.callbacks)
    (d : connection.t → M unit) (l : body_id) (b : basic_connection.t)
    (w : world) :
  let w1 := exec (connection.invoke_with cb d (signal_notified l)
                    (basic_connection.notify_signal b)) w in
  let w2 := exec (for_each
                    (λ o, connection.invoke_with cb d (bound_notified l)
                            (bound_object.notify o))
                    (basic_connection.bound_objects b)) w1 in
  exec (connection.disconnect_body cb d l b) w
  = exec (drop l) (exec (clear_bound_objects l) w2).
Proof. unfold connection.disconnect_body. by rewrite !exec_seq. Qed.

Lemma disconnect_body_spec (cb : connection.callbacks)
    (d : connection.t → M unit) (st : list body_id) (l : body_id)
    (b : basic_connection.t) (w : world) :
  is_Some (bodies w !! l) → l ∉ st →
  (∀ c w, preserves (l :: st) w (exec (d c) w)) →
  let w' := exec (connection.disconnect_body cb d l b) w in
  preserves st w w'
  ∧ bodies w' !! l = None
  ∧ signal_events l (trace w')
    = signal_events l (trace w)
      ++ [signal_notified l (basic_connection.notify_signal b)].
Proof.
  intros Hl Hst Hd. cbv zeta. rewrite exec_disconnect_body. cbv zeta.
  set (k := basic_connection.notify_signal b).
  set (w0 := exec (emit (signal_notified l k)) w).
  set (w1 := exec (connection.invoke_with cb d (signal_notified l) k) w).
  set (w2 := exec (for_each _ _) w1).
  set (w3 := exec (clear_bound_objects l) w2).
  assert (P01 : preserves (l :: st) w0 w1).
  { unfold w1. rewrite exec_invoke_with. by apply preserves_run_with. }
  assert (P12 : preserves (l :: st) w1 w2).
  { apply preserves_for_each. intros o w'.
    apply preserves_invoke_with; [done|]. done. }
  assert (P23 : preserves (l :: st) w2 (exec (drop l) w3)).
  { apply preserves_frame; [|done]. simpl.
    rewrite dom_delete, dom_alter. by apply subseteq_difference_l. }
  assert (P03 : preserves (l :: st) w0 (exec (drop l) w3)).
  { apply (preserves_trans _ _ w1); [done|].
    by apply (preserves_trans _ _ w2). }
  assert (P0 : preserves st w w0).
  { apply preserves_emit. intros l0 Hl0. simpl.
    apply bool_decide_eq_false. intros <-.
    destruct Hl0 as [?|Hn]; [done|]. destruct Hl as [? Hl]. congruence. }
  split; [|split].
  - apply (preserves_trans _ _ w0); [done|].
    apply (preserves_weaken (l :: st)); [|done].
    intros l0 ?. by apply list_elem_of_further.
  - simpl. apply lookup_delete_eq.
  - destruct P03 as [_ ->]; [|left; apply list_elem_of_here].
    unfold w0. simpl. rewrite signal_events_app, signal_events_one. simpl.
    by rewrite bool_decide_true.
Qed.

Lemma preserves_disconnect_in (cb : connection.callbacks) (fuel : nat) :
  ∀ st c w, preserves st w (exec (connection.disconnect_in cb fuel st c) w).
Proof.
  induction fuel as [|fuel IH]; intros st c w; unfold exec;
    rewrite disconnect_in_eq;
    destruct (eval (connection.lock c) w) as [[l b]|] eqn:E;
    try apply preserves_refl;
    destruct (decide (l ∈ st)); try apply preserves_refl.
  apply lock_Some in E as [_ Hb].
  apply (disconnect_body_spec cb _ st l b w); [eauto|done|].
  intros c' w'. apply IH.
Qed.

Lemma preserves_disconnect (cb : connection.callbacks) (c : connection.t) (w : world) :
  preserves [] w (exec (connection.disconnect cb c) w).
Proof. apply preserves_disconnect_in. Qed.

Lemma preserves_run (cb : connection.callbacks) (ops : list connection.handle_op)
    (w : world) :
  preserves [] w (exec (run cb ops) w).
Proof.
  apply preserves_run_with. intros c w'. apply preserves_disconnect.
Qed.

Lemma disconnect_alive (cb : connection.callbacks) (c : connection.t)
    (w : world) l b :
  connection.slot_ c = Some l → bodies w !! l = Some b →
  ∃ fuel,
    size (bodies w) = S fuel
    ∧ connection.disconnect cb c w
      = connection.disconnect_body cb
          (connection.disconnect_in cb fuel [l]) l b w.
Proof.
  intros Hs Hb. unfold connection.disconnect.
  destruct (size (bodies w)) as [|fuel] eqn:E.
  { apply map_size_empty_iff in E. rewrite E, lookup_empty in Hb. done. }
  exists fuel. split; [done|].
  rewrite disconnect_in_eq.
  assert (eval (connection.lock c) w = Some (l, b)) as -> by by apply lock_Some.
  rewrite decide_False; [done|]. by intros ?%elem_of_nil.
Qed.

Lemma disconnect_dead (cb : connection.callbacks) (fuel : nat)
    (st : list body_id) (c : connection.t) (w : world) :
  eval (connection.connected c) w = false →
  connection.disconnect_in cb fuel st c w = (tt, w)
  ∧ connection.disconnect cb c w = (tt, w).
Proof.
  intros H.
  assert (E : eval (connection.lock c) w = None).
  { apply lock_None. by apply connected_false. }
  unfold connection.disconnect. rewrite !disconnect_in_eq, E. done.
Qed.

(** *** The fuel suffices *)

Lemma pending_shrinks (st : list body_id) (w w' : world) :
  dom (bodies w') ⊆ dom (bodies w) → pending st w' ⊆ pending st w.
Proof. unfold pending. set_solver. Qed.

Lemma agree_bind {A B} (m m' : M A) (k k' : A → M B) (w : world) :
  m w = m' w → (∀ a, k a (exec m w) = k' a (exec m w)) →
  bind m k w = bind m' k' w.
Proof.
  intros Hm Hk. unfold bind. rewrite <- Hm. unfold exec in Hk.
  destruct (m w) as [a w']. apply Hk.
Qed.

Section agreement.
Variable cb : connection.callbacks.
Variable st : list body_id.
Variable P : world → Prop.
Variables d d' : connection.t → M unit.
Hypothesis P_down : ∀ w w', P w → dom (bodies w') ⊆ dom (bodies w) → P w'.
Hypothesis d_preserves : ∀ c w, preserves st w (exec (d c) w).
Hypothesis d_agree : ∀ c w, P w → d c w = d' c w.

Lemma step_with_agree (o : connection.handle_op) (w : world) :
  P w → connection.step_with d o w = connection.step_with d' o w.
Proof. intros Hw. destruct o; simpl; auto. Qed.

Lemma run_with_agree (ops : list connection.handle_op) :
  ∀ w, P w → connection.run_with d ops w = connection.run_with d' ops w.
Proof.
  unfold connection.run_with.
  induction ops as [|o ops IH]; intros w Hw; [done|]. simpl.
  apply agree_bind; [by apply step_with_agree|]. intros _.
  apply IH. apply (P_down w); [done|].
  by apply (preserves_step_with st d d_preserves o w).
Qed.

Lemma invoke_with_agree (tag : call → event) (k : call) (w : world) :
  P w →
  connection.invoke_with cb d tag k w = connection.invoke_with cb d' tag k w.
Proof.
  intros Hw. unfold connection.invoke_with.
  apply agree_bind; [done|]. intros _.
  apply run_with_agree. by apply (P_down w).
Qed.

Lemma invoke_with_dom (tag : call → event) (k : call) (w : world) :
  dom (bodies (exec (connection.invoke_with cb d tag k) w)) ⊆ dom (bodies w).
Proof.
  rewrite exec_invoke_with.
  by apply (preserves_run_with st d d_preserves _ (exec (emit (tag k)) w)).
Qed.

Lemma for_each_invoke_agree (tag : call → event) (os : list bound_object.t) :
  ∀ w, P w →
    for_each (λ o, connection.invoke_with cb d tag (bound_object.notify o)) os w
    = for_each (λ o, connection.invoke_with cb d' tag (bound_object.notify o)) os w.
Proof.
  induction os as [|o os IH]; intros w Hw; [done|]. simpl.
  apply agree_bind; [by apply invoke_with_agree|]. intros _.
  apply IH. apply (P_down w); [done|]. apply invoke_with_dom.
Qed.

Lemma disconnect_body_agree (l : body_id) (b : basic_connection.t) (w : world) :
  P w →
  connection.disconnect_body cb d l b w = connection.disconnect_body cb d' l b w.
Proof.
  intros Hw. unfold connection.disconnect_body.
  apply agree_bind; [by apply invoke_with_agree|]. intros _.
  apply agree_bind; [|done].
  apply for_each_invoke_agree.
  apply (P_down w); [done|]. apply invoke_with_dom.
Qed.
End agreement.

(** With as much fuel as there are bodies that can still be disconnected,
    more fuel changes nothing: the recursion never runs dry. *)
Lemma fuel_irrelevant (cb : connection.callbacks) (fuel : nat) :
  ∀ fuel' st c w,
    size (pending st w) ≤ fuel → size (pending st w) ≤ fuel' →
    connection.disconnect_in cb fuel st c w
    = connection.disconnect_in cb fuel' st c w.
Proof.
  induction fuel as [|fuel IH]; intros fuel' st c w H1 H2;
    rewrite !disconnect_in_eq;
    destruct (eval (connection.lock c) w) as [[l b]|] eqn:E; try done;
    destruct (decide (l ∈ st)) as [|Hst]; try done;
    apply lock_Some in E as [_ Hb];
    assert (Hl : l ∈ pending st w)
      by (unfold pending; apply elem_of_difference; split;
          [apply elem_of_dom; eauto | by rewrite elem_of_list_to_set]);
    assert (Hsz : size (pending st w) = S (size (pending (l :: st) w)))
      by (rewrite (union_difference_singleton_L l (pending st w) Hl),
            size_union, size_singleton by set_solver;
          unfold pending; simpl; f_equal; f_equal; set_solver).
  - lia.
  - destruct fuel' as [|fuel']; [lia|].
    apply (disconnect_body_agree cb (l :: st)
             (λ w', size (pending (l :: st) w') ≤ fuel
                    ∧ size (pending (l :: st) w') ≤ fuel')).
    + intros w1 w2 [? ?] Hd.
      pose proof (subseteq_size _ _ (pending_shrinks (l :: st) w1 w2 Hd)).
      split; lia.
    + intros c' w'. apply preserves_disconnect_in.
    + intros c' w' [? ?]. by apply IH.
    + split; lia.
Qed.

Lemma disconnect_fuel (cb : connection.callbacks) (c : connection.t)
    (w : world) (extra : nat) :
  connection.disconnect_in cb (size (bodies w) + extra) [] c w
  = connection.disconnect cb c w.
Proof.
  unfold connection.disconnect.
  assert (size (pending [] w) ≤ size (bodies w)).
  { unfold pending. rewrite <- size_dom. apply subseteq_size. set_solver. }
  apply fuel_irrelevant; lia.
Qed.

(** *** After [disconnect()] *)

Lemma disconnect_result (cb : connection.callbacks) (c : connection.t) (w : world) :
  let w1 := exec (connection.disconnect cb c) w in
  (eval (connection.connected c) w = false → w1 = w)
  ∧ (∀ l b, connection.slot_ c = Some l → bodies w !! l = Some b →
       bodies w1 !! l = None
       ∧ signal_events l (trace w1)
         = signal_events l (trace w)
           ++ [signal_notified l (basic_connection.notify_signal b)]).
Proof.
  cbv zeta. split.
  - intros H. unfold exec.
    by rewrite (proj2 (disconnect_dead cb 0 [] c w H)).
  - intros l b Hs Hb.
    destruct (disconnect_alive cb c w l b Hs Hb) as (fuel & _ & E).
    unfold exec at 1 2. rewrite E.
    destruct (disconnect_body_spec cb (connection.disconnect_in cb fuel [l])
                [] l b w) as (_ & H1 & H2).
    + eauto.
    + by intros ?%elem_of_nil.
    + intros c' w'. apply preserves_disconnect_in.
    + done.
Qed.

Lemma connected_after_disconnect (cb : connection.callbacks) (c : connection.t)
    (w : world) :
  eval (connection.connected c) (exec (connection.disconnect cb c) w) = false.
Proof.
  destruct (disconnect_result cb c w) as [Hd Ha].
  destruct (eval (connection.connected c) w) eqn:E.
  - apply connected_true in E as (l & b & Hs & Hb).
    destruct (Ha l b Hs Hb) as [Hn _].
    apply connected_false. intros l' Hs'. congruence.
  - by rewrite (Hd eq_refl).
Qed.




(** * Further properties of the header *)

(** ** Bound objects as keys *)

(** X1: [operator==] of bound objects is an equivalence relation: reflexive,
    symmetric and transitive. *)
Theorem bound_object_op_eq_equivalence (a b c : bound_object.t) :
  bound_object.op_eq a a = true
  ∧ bound_object.op_eq a b = bound_object.op_eq b a
  ∧ (bound_object.op_eq a b = true → bound_object.op_eq b c = true →
     bound_object.op_eq a c = true).
Proof.
  split; [apply bound_object_op_eq_spec; done|]. split.
  - unfold bound_object.op_eq.
    by rewrite (Z.eqb_sym (bound_object.obj a)), (Z.eqb_sym (bound_object.data a)).
  - rewrite !bound_object_op_eq_spec. intros [-> ->] [-> ->]. done.
Qed.

Lemma bound_object_op_eq_equivalence_witness :
  let a := bound_object.mk 20%Z 21%Z 22%Z in
  let b := bound_object.mk 20%Z 21%Z 23%Z in
  let c := bound_object.mk 20%Z 21%Z 24%Z in
  bound_object.op_eq a b = true ∧ bound_object.op_eq b c = true
  ∧ bound_object.op_eq a c = true.
Proof.
  intros a b c.
  assert (H1 : bound_object.op_eq a b = true) by reflexivity.
  assert (H2 : bound_object.op_eq b c = true) by reflexivity.
  split; [exact H1|]. split; [exact H2|].
  exact (proj2 (proj2 (bound_object_op_eq_equivalence a b c)) H1 H2).
Defined.

(** X2: [operator<] of bound objects is a strict weak ordering: no object is
    below itself, it is asymmetric and transitive, and being incomparable is
    transitive. *)
Theorem bound_object_op_lt_strict_weak (a b c : bound_object.t) :
  bound_object.op_lt a a = false
  ∧ (bound_object.op_lt a b = true → bound_object.op_lt b a = false)
  ∧ (bound_object.op_lt a b = true → bound_object.op_lt b c = true →
     bound_object.op_lt a c = true)
  ∧ (bound_object.op_lt a b = false → bound_object.op_lt b a = false →
     bound_object.op_lt b c = false → bound_object.op_lt c b = false →
     bound_object.op_lt a c = false ∧ bound_object.op_lt c a = false).
Proof.
  unfold bound_object.op_lt.
  rewrite !Z.ltb_lt, !Z.ltb_ge. repeat split; lia.
Qed.

Lemma bound_object_op_lt_strict_weak_witness :
  let a := bound_object.mk 1%Z 0%Z 0%Z in
  let b := bound_object.mk 2%Z 0%Z 0%Z in
  let c := bound_object.mk 3%Z 0%Z 0%Z in
  let d := bound_object.mk 1%Z 5%Z 0%Z in
  let e := bound_object.mk 1%Z 6%Z 0%Z in
  bound_object.op_lt a b = true ∧ bound_object.op_lt b c = true
  ∧ bound_object.op_lt b a = false ∧ bound_object.op_lt a c = true
  ∧ bound_object.op_lt a d = false ∧ bound_object.op_lt d a = false
  ∧ bound_object.op_lt d e = false ∧ bound_object.op_lt e d = false
  ∧ bound_object.op_lt a e = false ∧ bound_object.op_lt e a = false.
Proof.
  intros a b c d e.
  assert (H1 : bound_object.op_lt a b = true) by reflexivity.
  assert (H2 : bound_object.op_lt b c = true) by reflexivity.
  assert (H3 : bound_object.op_lt a d = false) by reflexivity.
  assert (H4 : bound_object.op_lt d a = false) by reflexivity.
  assert (H5 : bound_object.op_lt d e = false) by reflexivity.
  assert (H6 : bound_object.op_lt e d = false) by reflexivity.
  destruct (bound_object_op_lt_strict_weak a b c) as (_ & A & T & _).
  destruct (bound_object_op_lt_strict_weak a d e) as (_ & _ & _ & I).
  destruct (I H3 H4 H5 H6) as [I1 I2].
  split; [exact H1|]. split; [exact H2|]. split; [exact (A H1)|].
  split; [exact (T H1 H2)|]. split; [exact H3|]. split; [exact H4|].
  split; [exact H5|]. split; [exact H6|]. split; [exact I1|exact I2].
Defined.

(** X3: two bound objects are incomparable under [operator<] exactly when
    their object addresses agree.  So equal bound objects are incomparable,
    but not the other way round: two bound objects of one object with
    different data are incomparable and unequal. *)
Theorem bound_object_incomparable_is_coarser_than_equal (a b : bound_object.t) :
  (bound_object.op_lt a b = false ∧ bound_object.op_lt b a = false
   ↔ bound_object.obj a = bound_object.obj b)
  ∧ (bound_object.op_eq a b = true →
     bound_object.op_lt a b = false ∧ bound_object.op_lt b a = false)
  ∧ (bound_object.obj a = bound_object.obj b →
     bound_object.data a ≠ bound_object.data b →
     bound_object.op_lt a b = false ∧ bound_object.op_lt b a = false
     ∧ bound_object.op_eq a b = false ∧ bound_object.op_ne a b = true).
Proof.
  unfold bound_object.op_ne.
  rewrite bound_object_op_eq_spec.
  unfold bound_object.op_lt, bound_object.op_eq.
  rewrite !Z.ltb_ge. split; [lia|]. split; [lia|].
  intros -> Hd. apply Z.eqb_neq in Hd. rewrite Hd, andb_false_r.
  repeat split; lia.
Qed.

Lemma bound_object_incomparable_is_coarser_than_equal_witness :
  let a := bound_object.mk 20%Z 21%Z 22%Z in
  let b := bound_object.mk 20%Z 25%Z 22%Z in
  bound_object.obj a = bound_object.obj b
  ∧ bound_object.data a ≠ bound_object.data b
  ∧ bound_object.op_eq a a = true
  ∧ bound_object.op_lt a a = false
  ∧ bound_object.op_lt a b = false ∧ bound_object.op_lt b a = false
  ∧ bound_object.op_eq a b = false.
Proof.
  intros a b.
  assert (H1 : bound_object.obj a = bound_object.obj b) by reflexivity.
  assert (H2 : bound_object.data a ≠ bound_object.data b) by (simpl; lia).
  assert (H3 : bound_object.op_eq a a = true) by reflexivity.
  destruct (bound_object_incomparable_is_coarser_than_equal a a) as (_ & E & _).
  destruct (bound_object_incomparable_is_coarser_than_equal a b) as (_ & _ & D).
  destruct (D H1 H2) as (D1 & D2 & D3 & _).
  split; [exact H1|]. split; [exact H2|]. split; [exact H3|].
  split; [exact (proj1 (E H3))|]. split; [exact D1|]. split; [exact D2|exact D3].
Defined.

(** X4: [operator>] of bound objects, as written, is a total preorder on the
    object addresses: every object is above itself, of two objects one is
    above the other, it is transitive, it holds whenever the other object is
    below, and it holds both ways exactly for equal object addresses. *)
Theorem bound_object_op_gt_total_preorder (a b c : bound_object.t) :
  bound_object.op_gt a a = true
  ∧ (bound_object.op_gt a b = true ∨ bound_object.op_gt b a = true)
  ∧ (bound_object.op_gt a b = true → bound_object.op_gt b c = true →
     bound_object.op_gt a c = true)
  ∧ (bound_object.op_lt b a = true → bound_object.op_gt a b = true)
  ∧ (bound_object.op_gt a b = true ∧ bound_object.op_gt b a = true
     ↔ bound_object.obj a = bound_object.obj b).
Proof.
  rewrite !bound_object_op_gt_spec, bound_object_op_lt_spec.
  repeat split; lia.
Qed.

Lemma bound_object_op_gt_total_preorder_witness :
  let a := bound_object.mk 3%Z 0%Z 0%Z in
  let b := bound_object.mk 2%Z 0%Z 0%Z in
  let c := bound_object.mk 2%Z 7%Z 0%Z in
  bound_object.op_gt a b = true ∧ bound_object.op_gt b c = true
  ∧ bound_object.op_lt b a = true
  ∧ bound_object.op_gt a c = true.
Proof.
  intros a b c.
  assert (H1 : bound_object.op_gt a b = true) by reflexivity.
  assert (H2 : bound_object.op_gt b c = true) by reflexivity.
  assert (H3 : bound_object.op_lt b a = true) by reflexivity.
  destruct (bound_object_op_gt_total_preorder a b c) as (_ & _ & T & _).
  split; [exact H1|]. split; [exact H2|]. split; [exact H3|exact (T H1 H2)].
Defined.

(** ** Connections as keys *)

(** X5: on connections [operator==] is an equivalence relation and
    [operator<] a strict total order that agrees with it: of [a < b],
    [a == b] and [b < a] exactly one holds, and [operator<] is transitive. *)
Theorem connection_order_is_total (a b c : connection.t) :
  connection.op_eq a a = true
  ∧ connection.op_eq a b = connection.op_eq b a
  ∧ (connection.op_eq a b = true → connection.op_eq b c = true →
     connection.op_eq a c = true)
  ∧ connection.op_lt a a = false
  ∧ (connection.op_lt a b = true → connection.op_lt b c = true →
     connection.op_lt a c = true)
  ∧ (connection.op_lt a b = true ∧ connection.op_eq a b = false
       ∧ connection.op_lt b a = false
     ∨ connection.op_lt a b = false ∧ connection.op_eq a b = true
       ∧ connection.op_lt b a = false
     ∨ connection.op_lt a b = false ∧ connection.op_eq a b = false
       ∧ connection.op_lt b a = true)
  ∧ (connection.op_lt a b = false ∧ connection.op_lt b a = false
     ↔ connection.op_eq a b = true).
Proof.
  unfold connection.op_eq, connection.op_lt.
  rewrite (Z.eqb_sym (connection.identity_ b)).
  rewrite !Z.ltb_lt, !Z.ltb_ge, !Z.eqb_eq, !Z.eqb_neq.
  repeat split; lia.
Qed.

Lemma connection_order_is_total_witness :
  let a := connection.default 16%Z in
  let b := connection.default 32%Z in
  let c := connection.default 48%Z in
  let a' := connection.copy a in
  connection.op_lt a b = true ∧ connection.op_lt b c = true
  ∧ connection.op_lt a c = true
  ∧ connection.op_eq a a' = true ∧ connection.op_eq a' a = true
  ∧ connection.op_eq a a = true.
Proof.
  intros a b c a'.
  assert (H1 : connection.op_lt a b = true) by reflexivity.
  assert (H2 : connection.op_lt b c = true) by reflexivity.
  assert (H3 : connection.op_eq a a' = true) by reflexivity.
  assert (H4 : connection.op_eq a' a = true) by reflexivity.
  destruct (connection_order_is_total a b c) as (_ & _ & _ & _ & T & _).
  destruct (connection_order_is_total a a' a) as (_ & _ & E & _).
  split; [exact H1|]. split; [exact H2|]. split; [exact (T H1 H2)|].
  split; [exact H3|]. split; [exact H4|exact (E H3 H4)].
Defined.

(** X6: copying does not disturb comparison: copies (by copy construction
    or assignment) of [a] and of [b] compare with [==] and [<] as [a] and [b]
    do; handles that differ stay different however often they are copied. *)
Theorem comparison_respects_copies (a a' b b' : connection.t) :
  copy_of a a' → copy_of b b' →
  connection.op_eq a' b' = connection.op_eq a b
  ∧ connection.op_lt a' b' = connection.op_lt a b
  ∧ connection.slot_ a' = connection.slot_ a
  ∧ connection.slot_ b' = connection.slot_ b.
Proof.
  intros [Sa Ia]%copy_of_fields [Sb Ib]%copy_of_fields.
  unfold connection.op_eq, connection.op_lt. rewrite Ia, Ib. done.
Qed.

Lemma comparison_respects_copies_witness :
  let a := example_handle in
  let b := connection.default 32%Z in
  let a' := connection.copy (connection.copy a) in
  let b' := connection.assign a (connection.copy b) in
  copy_of a a' ∧ copy_of b b'
  ∧ connection.op_eq a' b' = connection.op_eq a b
  ∧ connection.op_lt a' b' = connection.op_lt a b.
Proof.
  intros a b a' b'.
  assert (H1 : copy_of a a') by apply copy_of_copy, copy_of_copy, copy_of_self.
  assert (H2 : copy_of b b') by apply copy_of_assign, copy_of_copy, copy_of_self.
  destruct (comparison_respects_copies a a' b b' H1 H2) as (E & L & _).
  split; [exact H1|]. split; [exact H2|]. split; [exact E|exact L].
Defined.

(** ** Assignment and swap of objects in memory *)

Lemma assign_at_insert (s : storage) (p q : ptr) (a b : connection.t) :
  s !! p = Some a → s !! q = Some b →
  assign_at p q s = Some (<[p := b]> s).
Proof.
  intros Hp Hq. unfold assign_at. rewrite Hp, Hq. simpl.
  rewrite lookup_alter, Hp. destruct a as [sa ia], b as [sb ib].
  assert (E : ∀ v, (if decide (p = q)
                    then connection.set_slot sb <$> Some (connection.mk sa ia)
                    else s !! q) = Some v
                   → connection.identity_ v = ib).
  { intros v. case_decide as D; simpl.
    - subst q. rewrite Hp in Hq. injection Hq as -> ->. by intros [= <-].
    - rewrite Hq. by intros [= <-]. }
  destruct (if decide (p = q) then _ else _) as [v|] eqn:Ev.
  - simpl. rewrite (E v eq_refl). f_equal. apply map_eq. intros r.
    rewrite !lookup_alter, lookup_insert.
    destruct (decide (p = r)) as [<-|Hr]; [|done].
    rewrite decide_True, Hp by done. done.
  - case_decide; simpl in Ev; congruence.
Qed.

Lemma swap_at_insert (s : storage) (p q : ptr) (a b : connection.t) :
  s !! p = Some a → s !! q = Some b →
  swap_at p q s = Some (<[q := a]> (<[p := b]> s)).
Proof.
  intros Hp Hq.
  destruct (swap_at_exchanges s p q a b Hp Hq) as (s' & -> & Hp' & Hq' & Hr).
  f_equal. apply map_eq. intros r. rewrite !lookup_insert.
  destruct (decide (q = r)) as [<-|Hq1]; [done|].
  destruct (decide (p = r)) as [<-|Hp1]; [done|].
  apply Hr; congruence.
Qed.

Lemma swap_at_None (s : storage) (p q : ptr) :
  s !! p = None ∨ s !! q = None → swap_at p q s = None.
Proof.
  unfold swap_at. intros [H|H].
  - by rewrite H.
  - rewrite H. by destruct (s !! p).
Qed.

(** X7: assignment between two objects in memory overwrites the target with
    the source and touches nothing else: afterwards the target holds the
    source's weak reference and identity, the source and all other objects
    are as before; assigning an object to itself changes nothing; a second
    assignment from the same source changes nothing more. *)
Theorem assign_at_overwrites_target
    (s : storage) (p q : ptr) (a b : connection.t) :
  s !! p = Some a → s !! q = Some b →
  ∃ s1, assign_at p q s = Some s1
        ∧ s1 !! p = Some b
        ∧ s1 !! q = Some b
        ∧ (∀ r, r ≠ p → s1 !! r = s !! r)
        ∧ assign_at p p s = Some s
        ∧ assign_at p q s1 = Some s1.
Proof.
  intros Hp Hq. exists (<[p := b]> s).
  split; [by apply (assign_at_insert s p q a b)|].
  split; [by rewrite lookup_insert_eq|].
  assert (Hq1 : <[p := b]> s !! q = Some b).
  { rewrite lookup_insert. case_decide; done. }
  split; [done|].
  split; [intros r Hr; by rewrite lookup_insert_ne|].
  split.
  - rewrite (assign_at_insert s p p a a Hp Hp). by rewrite insert_id.
  - rewrite (assign_at_insert _ p q b b); [|by rewrite lookup_insert_eq|done].
    by rewrite insert_insert_eq.
Qed.

Lemma assign_at_overwrites_target_witness :
  let a := connection.default 16%Z in
  let b := example_handle in
  let s : storage := {[ 16%Z := a; 32%Z := b ]} in
  s !! 16%Z = Some a ∧ s !! 32%Z = Some b
  ∧ ∃ s1, assign_at 16%Z 32%Z s = Some s1
          ∧ s1 !! 16%Z = Some b ∧ s1 !! 32%Z = Some b.
Proof.
  intros a b s.
  assert (Ha : s !! 16%Z = Some a) by (vm_compute; reflexivity).
  assert (Hb : s !! 32%Z = Some b) by (vm_compute; reflexivity).
  destruct (assign_at_overwrites_target s 16%Z 32%Z a b Ha Hb)
    as (s1 & E & H1 & H2 & _).
  split; [exact Ha|]. split; [exact Hb|].
  exists s1. split; [exact E|]. split; [exact H1|exact H2].
Defined.

(** X8: [a.swap(b)] and [b.swap(a)] leave memory in the same state, for any
    two addresses; the swap takes place exactly when both objects are
    alive. *)
Theorem swap_at_is_symmetric (s : storage) (p q : ptr) :
  swap_at p q s = swap_at q p s
  ∧ (is_Some (swap_at p q s) ↔ is_Some (s !! p) ∧ is_Some (s !! q)).
Proof.
  destruct (s !! p) as [a|] eqn:Hp; destruct (s !! q) as [b|] eqn:Hq.
  - rewrite (swap_at_insert s p q a b Hp Hq), (swap_at_insert s q p b a Hq Hp).
    split; [|split; eauto].
    f_equal. destruct (decide (p = q)) as [->|Hne].
    + by assert (a = b) as -> by congruence.
    + by apply insert_insert_ne.
  - rewrite !swap_at_None by auto. split; [done|].
    split; [by intros [? ?]|by intros [_ [? ?]]].
  - rewrite !swap_at_None by auto. split; [done|].
    split; [by intros [? ?]|by intros [[? ?] _]].
  - rewrite !swap_at_None by auto. split; [done|].
    split; [by intros [? ?]|by intros [[? ?] _]].
Qed.

(** X9: the member [swap] does what the three-statement exchange through a
    temporary does: copy-construct [tmp] from [a] at a free address, assign
    [b] to [a], assign [tmp] to [b], destroy [tmp]. *)
Theorem swap_at_is_exchange_through_temporary
    (s : storage) (p q tmp : ptr) :
  s !! tmp = None → is_Some (s !! p) → is_Some (s !! q) →
  (s1 ← construct_copy tmp p s;
   s2 ← assign_at p q s1;
   s3 ← assign_at q tmp s2;
   destroy tmp s3)
  = swap_at p q s.
Proof.
  intros Ht [a Hp] [b Hq].
  assert (tmp ≠ p) as Htp by congruence.
  assert (tmp ≠ q) as Htq by congruence.
  rewrite (swap_at_insert s p q a b Hp Hq).
  unfold construct_copy. rewrite Ht, Hp. simpl.
  assert (connection.copy a = a) as -> by by destruct a.
  rewrite (assign_at_insert _ p q a b);
    [|by rewrite lookup_insert_ne|by rewrite lookup_insert_ne].
  simpl.
  rewrite (assign_at_insert _ q tmp b a); simpl.
  - unfold destroy. rewrite lookup_insert_ne, lookup_insert_ne, lookup_insert_eq by done.
    simpl. f_equal. apply map_eq. intros r.
    rewrite lookup_delete, !lookup_insert.
    repeat case_decide; simplify_eq; done.
  - rewrite lookup_insert. case_decide; [by simplify_eq|].
    by rewrite lookup_insert_ne.
  - by rewrite lookup_insert_ne, lookup_insert_eq.
Qed.

Lemma swap_at_is_exchange_through_temporary_witness :
  let s : storage := {[ 16%Z := connection.default 16%Z; 32%Z := example_handle ]} in
  s !! 64%Z = None ∧ is_Some (s !! 16%Z) ∧ is_Some (s !! 32%Z)
  ∧ (s1 ← construct_copy 64%Z 16%Z s;
     s2 ← assign_at 16%Z 32%Z s1;
     s3 ← assign_at 32%Z 64%Z s2;
     destroy 64%Z s3)
    = swap_at 16%Z 32%Z s.
Proof.
  intros s.
  assert (H1 : s !! 64%Z = None) by (vm_compute; reflexivity).
  assert (H2 : is_Some (s !! 16%Z)) by (eexists; vm_compute; reflexivity).
  assert (H3 : is_Some (s !! 32%Z)) by (eexists; vm_compute; reflexivity).
  split; [exact H1|]. split; [exact H2|]. split; [exact H3|].
  exact (swap_at_is_exchange_through_temporary s 16%Z 32%Z 64%Z H1 H2 H3).
Defined.

(** ** Identities of objects that are never destroyed *)

Lemma roots_live_insert (s : storage) (p : ptr) (c : connection.t) :
  roots_live s →
  is_Some (s !! connection.identity_ c) ∨ connection.identity_ c = p →
  roots_live (<[p := c]> s).
Proof.
  intros Hs Hc r c' Hr.
  assert (L : ∀ i, is_Some (s !! i) → is_Some (<[p := c]> s !! i)).
  { intros i Hi. rewrite lookup_insert. by case_decide. }
  rewrite lookup_insert in Hr. case_decide as D.
  - injection Hr as <-. destruct Hc as [Hc| ->]; [by apply L|].
    rewrite lookup_insert_eq. eauto.
  - apply L. by apply (Hs r).
Qed.

Lemma assign_at_inv (s s' : storage) (p q : ptr) :
  assign_at p q s = Some s' →
  ∃ a b, s !! p = Some a ∧ s !! q = Some b.
Proof.
  unfold assign_at. destruct (s !! p) as [a|]; [|done].
  destruct (s !! q) as [b|]; [|done]. eauto.
Qed.

Lemma swap_at_inv (s s' : storage) (p q : ptr) :
  swap_at p q s = Some s' →
  ∃ a b, s !! p = Some a ∧ s !! q = Some b.
Proof.
  unfold swap_at. destruct (s !! p) as [a|]; [|done].
  destruct (s !! q) as [b|]; [|done]. eauto.
Qed.

Lemma roots_live_step (o : storage_op) (s s' : storage) :
  roots_live s → storage_step o s = Some s' → roots_live s'.
Proof.
  intros Hs. destruct o as [p|p q|p q|p q]; simpl.
  - unfold construct_default. destruct (s !! p); [done|]. intros [= <-].
    apply roots_live_insert; auto.
  - unfold construct_copy. destruct (s !! p); [done|].
    destruct (s !! q) as [c|] eqn:Hq; [|done]. intros [= <-].
    apply roots_live_insert; [done|]. left. exact (Hs q c Hq).
  - intros H. destruct (assign_at_inv _ _ _ _ H) as (a & b & Hp & Hq).
    rewrite (assign_at_insert s p q a b Hp Hq) in H. injection H as <-.
    apply roots_live_insert; [done|]. left. exact (Hs q b Hq).
  - intros H. destruct (swap_at_inv _ _ _ _ H) as (a & b & Hp & Hq).
    rewrite (swap_at_insert s p q a b Hp Hq) in H. injection H as <-.
    apply roots_live_insert.
    + apply roots_live_insert; [done|]. left. exact (Hs q b Hq).
    + left. rewrite lookup_insert. case_decide; [done|]. exact (Hs p a Hp).
Qed.

Lemma roots_live_run (ops : list storage_op) (s s' : storage) :
  roots_live s → storage_run ops s = Some s' → roots_live s'.
Proof.
  revert s. induction ops as [|o ops IH]; intros s Hs; simpl.
  - by intros [= <-].
  - destruct (storage_step o s) as [s1|] eqn:E; [|done]. simpl.
    apply IH. by apply (roots_live_step o s).
Qed.

(** X10: as long as no connection object is destroyed, identities stay
    fresh.  In a memory built from nothing by default constructions, copy
    constructions, assignments and swaps, every identity is the address of a
    live object, and an object default-constructed next compares unequal to
    every object that is already there. *)
Theorem default_identity_is_fresh_without_destruction
    (ops : list storage_op) (s : storage) :
  storage_run ops ∅ = Some s →
  roots_live s
  ∧ ∀ p s', construct_default p s = Some s' →
      s' !! p = Some (connection.default p)
      ∧ ∀ q c, q ≠ p → s' !! q = Some c →
          connection.op_eq (connection.default p) c = false
          ∧ connection.op_eq c (connection.default p) = false.
Proof.
  intros Hrun.
  assert (Hs : roots_live s).
  { apply (roots_live_run ops ∅ s); [|done]. intros p c. by rewrite lookup_empty. }
  split; [done|]. intros p s'. unfold construct_default.
  destruct (s !! p) eqn:Hp; [done|]. intros [= <-].
  split; [by rewrite lookup_insert_eq|].
  intros q c Hq. rewrite lookup_insert_ne by done. intros Hc.
  assert (connection.identity_ c ≠ p) as Hne.
  { intros <-. destruct (Hs q c Hc) as [? ?]. congruence. }
  unfold connection.op_eq. simpl. split; apply Z.eqb_neq; congruence.
Qed.

Lemma default_identity_is_fresh_without_destruction_witness :
  let ops := [New 16%Z; Copy 32%Z 16%Z; New 48%Z; Swap 16%Z 48%Z; Assign 48%Z 32%Z] in
  let s : storage :=
    {[ 16%Z := connection.default 48%Z; 32%Z := connection.default 16%Z;
       48%Z := connection.default 16%Z ]} in
  let s' : storage := <[ 64%Z := connection.default 64%Z ]> s in
  storage_run ops ∅ = Some s
  ∧ construct_default 64%Z s = Some s'
  ∧ (32 ≠ 64)%Z
  ∧ s' !! 32%Z = Some (connection.default 16%Z)
  ∧ connection.op_eq (connection.default 64%Z) (connection.default 16%Z) = false.
Proof.
  intros ops s s'.
  assert (H1 : storage_run ops ∅ = Some s) by (vm_compute; reflexivity).
  assert (H2 : construct_default 64%Z s = Some s') by (vm_compute; reflexivity).
  assert (H3 : (32 ≠ 64)%Z) by lia.
  assert (H4 : s' !! 32%Z = Some (connection.default 16%Z))
    by (vm_compute; reflexivity).
  destruct (default_identity_is_fresh_without_destruction ops s H1) as [_ F].
  destruct (F 64%Z s' H2) as [_ G].
  split; [exact H1|]. split; [exact H2|]. split; [exact H3|].
  split; [exact H4|]. exact (proj1 (G 32%Z _ H3 H4)).
Defined.

(** X11: an identity is an address, and comes back when the address does.
    Default-construct an object at [p], copy it to [q], destroy the object at
    [p] and default-construct a new object at [p]: the new object compares
    equal to the copy at [q], which was never copied from it. *)
Theorem reused_address_shares_identity (p q : ptr) :
  p ≠ q →
  ∃ s3 s4,
    (s1 ← construct_default p ∅; s2 ← construct_copy q p s1; destroy p s2)
    = Some s3
    ∧ s3 !! p = None
    ∧ ¬ roots_live s3
    ∧ construct_default p s3 = Some s4
    ∧ s4 !! p = Some (connection.default p)
    ∧ s4 !! q = Some (connection.copy (connection.default p))
    ∧ connection.op_eq (connection.default p)
        (connection.copy (connection.default p)) = true.
Proof.
  intros Hne.
  exists {[ q := connection.copy (connection.default p) ]},
         (<[ p := connection.default p ]>
            {[ q := connection.copy (connection.default p) ]}).
  assert (q ≠ p) as Hne' by congruence.
  split.
  { unfold construct_default. rewrite lookup_empty. simpl.
    unfold construct_copy.
    rewrite lookup_insert_ne, lookup_empty, lookup_insert_eq by done. simpl.
    unfold destroy. rewrite lookup_insert_ne, lookup_insert_eq by done. simpl.
    f_equal. apply map_eq. intros r.
    rewrite lookup_delete, !lookup_insert, lookup_empty, lookup_singleton.
    repeat case_decide; simplify_eq; done. }
  split; [by rewrite lookup_singleton_ne|].
  split.
  { intros H. destruct (H q _ (lookup_singleton_eq _ _)) as [c Hc].
    simpl in Hc. by rewrite lookup_singleton_ne in Hc. }
  split.
  { unfold construct_default. by rewrite lookup_singleton_ne. }
  split; [by rewrite lookup_insert_eq|].
  split; [by rewrite lookup_insert_ne, lookup_singleton_eq|].
  apply op_eq_true. done.
Qed.

Lemma reused_address_shares_identity_witness :
  (16 ≠ 32)%Z
  ∧ ∃ s3 s4 : storage,
      (s1 ← construct_default 16%Z ∅; s2 ← construct_copy 32%Z 16%Z s1;
       destroy 16%Z s2) = Some s3
      ∧ construct_default 16%Z s3 = Some s4
      ∧ s4 !! 16%Z = Some (connection.default 16%Z)
      ∧ s4 !! 32%Z = Some (connection.copy (connection.default 16%Z)).
Proof.
  assert (H : (16 ≠ 32)%Z) by lia.
  split; [exact H|].
  destruct (reused_address_shares_identity 16%Z 32%Z H)
    as (s3 & s4 & E1 & _ & _ & E2 & Hp & Hq & _).
  exists s3, s4. split; [exact E1|]. split; [exact E2|]. split; [exact Hp|exact Hq].
Defined.

(** ** The predicates over a slot list *)

Lemma eval_is_disconnected {any} (p : connection_slot_pair.t any) (w : world) :
  eval (is_disconnected p) w
  = negb (eval (connection.connected (connection_slot_pair.first p)) w).
Proof. unfold is_disconnected. by rewrite eval_bind. Qed.

Lemma eval_is_callable {any} (p : connection_slot_pair.t any) (w : world) :
  eval (is_callable p) w
  = eval (connection.connected (connection_slot_pair.first p)) w
    && negb (eval (connection.blocked (connection_slot_pair.first p)) w).
Proof.
  unfold is_callable. rewrite eval_bind, connected_pure.
  destruct (eval (connection.connected _) w); [|reflexivity].
  by rewrite eval_bind.
Qed.

Lemma blocked_same_slot (c c' : connection.t) (w : world) :
  connection.slot_ c' = connection.slot_ c →
  eval (connection.blocked c') w = eval (connection.blocked c) w.
Proof.
  intros E. unfold connection.blocked, connection.lock, eval, bind, ret.
  simpl. by rewrite E.
Qed.

(** X12: no pair is both disconnected and callable: whatever [is_callable]
    accepts, [is_disconnected] rejects.  A default-constructed pair is
    disconnected and not callable in every world. *)
Theorem predicates_exclude_each_other
    {any} (p : connection_slot_pair.t any) (w : world) :
  (eval (is_callable p) w = true → eval (is_disconnected p) w = false)
  ∧ (eval (is_disconnected p) w = true → eval (is_callable p) w = false)
  ∧ (∀ first_addr empty,
       eval (is_disconnected (connection_slot_pair.default first_addr empty)) w
       = true
       ∧ eval (is_callable (@connection_slot_pair.default any first_addr empty)) w
         = false).
Proof.
  rewrite eval_is_disconnected, eval_is_callable.
  split; [|split].
  - by destruct (eval (connection.connected _) w).
  - by destruct (eval (connection.connected _) w).
  - intros first_addr empty.
    rewrite eval_is_disconnected, eval_is_callable.
    unfold connection_slot_pair.default. cbn [connection_slot_pair.first].
    destruct (no_body_is_inert (connection.default first_addr) w eq_refl)
      as [-> _]. done.
Qed.

Lemma predicates_exclude_each_other_witness :
  let w := exec (connection.unblock example_handle) example_world in
  let p := connection_slot_pair.make example_handle tt in
  let d := connection_slot_pair.default 16%Z tt in
  eval (is_callable p) w = true ∧ eval (is_disconnected p) w = false
  ∧ eval (is_disconnected d) w = true ∧ eval (is_callable d) w = false.
Proof.
  intros w p d.
  assert (H1 : eval (is_callable p) w = true) by (vm_compute; reflexivity).
  assert (H2 : eval (is_disconnected d) w = true) by (vm_compute; reflexivity).
  destruct (predicates_exclude_each_other p w) as (A & _ & _).
  destruct (predicates_exclude_each_other d w) as (_ & B & _).
  split; [exact H1|]. split; [exact (A H1)|]. split; [exact H2|exact (B H2)].
Defined.

(** X13: pruning the disconnected entries of a slot list loses no callable
    entry: the callable entries of the pruned list are those of the list, in
    the same order, and each callable entry survives pruning. *)
Theorem pruning_keeps_callable
    {any} (w : world) (ps : list (connection_slot_pair.t any)) :
  callable_in w (prune_in w ps) = callable_in w ps
  ∧ ∀ p, p ∈ callable_in w ps → p ∈ prune_in w ps.
Proof.
  assert (X : ∀ p : connection_slot_pair.t any,
            eval (is_callable p) w = true → eval (is_disconnected p) w = false).
  { intros p. rewrite eval_is_disconnected, eval_is_callable.
    by destruct (eval (connection.connected _) w). }
  split.
  - unfold callable_in, prune_in.
    induction ps as [|p ps IH]; [done|].
    destruct (eval (is_disconnected p) w) eqn:D.
    + rewrite (filter_cons_False _ p ps) by (rewrite D; done).
      rewrite IH. rewrite (filter_cons_False _ p ps); [done|].
      intros C. apply X in C. congruence.
    + rewrite (filter_cons_True _ p ps) by done.
      destruct (eval (is_callable p) w) eqn:C.
      * rewrite !filter_cons_True by done. by rewrite IH.
      * rewrite !filter_cons_False by (rewrite C; done). done.
  - intros p. unfold callable_in, prune_in.
    rewrite !list_elem_of_filter. intros [C ?]. auto.
Qed.

Lemma pruning_keeps_callable_witness :
  let w := exec (connection.unblock example_handle) example_world in
  let p := connection_slot_pair.make example_handle tt in
  let d := connection_slot_pair.default 16%Z tt in
  p ∈ callable_in w [d; p; d]
  ∧ p ∈ prune_in w [d; p; d]
  ∧ callable_in w (prune_in w [d; p; d]) = [p].
Proof.
  intros w p d.
  assert (H : p ∈ callable_in w [d; p; d]).
  { apply list_elem_of_filter. split; [vm_compute; reflexivity|].
    apply list_elem_of_further, list_elem_of_here. }
  destruct (pruning_keeps_callable w [d; p; d]) as [E K].
  split; [exact H|]. split; [exact (K p H)|].
  rewrite E. vm_compute. reflexivity.
Defined.

(** X14: a pair built from a connection answers for that connection: the
    predicates on the pair give what the connection's own [connected()] and
    [blocked()] give, the stored slot plays no part, the pair's connection
    compares equal to the one it was built from, and a pair built from any
    copy of the connection answers the same. *)
Theorem pair_answers_for_its_connection
    {any} (c c' : connection.t) (a a' : any) (w : world) :
  copy_of c c' →
  eval (is_disconnected (connection_slot_pair.make c a)) w
  = negb (eval (connection.connected c) w)
  ∧ eval (is_callable (connection_slot_pair.make c a)) w
    = eval (connection.connected c) w && negb (eval (connection.blocked c) w)
  ∧ connection.op_eq
      (connection_slot_pair.first (connection_slot_pair.make c a)) c = true
  ∧ eval (is_disconnected (connection_slot_pair.make c' a')) w
    = eval (is_disconnected (connection_slot_pair.make c a)) w
  ∧ eval (is_callable (connection_slot_pair.make c' a')) w
    = eval (is_callable (connection_slot_pair.make c a)) w.
Proof.
  intros [S _]%copy_of_fields.
  rewrite !eval_is_disconnected, !eval_is_callable. simpl.
  rewrite !(connected_same_slot c (connection.copy c) w) by done.
  rewrite !(blocked_same_slot c (connection.copy c) w) by done.
  rewrite !(connected_same_slot c (connection.copy c') w) by done.
  rewrite !(blocked_same_slot c (connection.copy c') w) by done.
  repeat split. by apply op_eq_true.
Qed.

Lemma pair_answers_for_its_connection_witness :
  let c := example_handle in
  let c' := connection.assign (connection.default 16%Z) example_handle in
  copy_of c c'
  ∧ eval (is_callable (connection_slot_pair.make c' 5)) example_world
    = eval (is_callable (connection_slot_pair.make c 7)) example_world.
Proof.
  intros c c'.
  assert (H : copy_of c c') by apply copy_of_assign, copy_of_self.
  split; [exact H|].
  exact (proj2 (proj2 (proj2 (proj2
    (pair_answers_for_its_connection c c' 7 5 example_world H))))).
Defined.

(** ** Guards, one after the other *)

Lemma scope_exec (b : bound_object.t) (n : nat) (w : world) :
  exec (auto_disconnect_bound_object.scope b n) w
  = World (bodies w) (trace w ++ unreleased [(b, n)]).
Proof.
  unfold exec. rewrite scope_unfold. destruct n as [|n].
  - reflexivity.
  - rewrite release_times_S. simpl. destruct w. simpl. by rewrite app_nil_r.
Qed.

Lemma unreleased_cons (g : bound_object.t * nat)
    (gs : list (bound_object.t * nat)) :
  unreleased (g :: gs) = unreleased [g] ++ unreleased gs.
Proof. by destruct g as [b [|n]]. Qed.

Lemma scopes_exec (gs : list (bound_object.t * nat)) :
  ∀ w, exec (scopes gs) w = World (bodies w) (trace w ++ unreleased gs).
Proof.
  induction gs as [|g gs IH]; intros w.
  - destruct w. unfold exec. simpl. by rewrite app_nil_r.
  - destruct g as [b n]. rewrite (unreleased_cons (b, n) gs).
    unfold scopes. cbn [for_each]. rewrite exec_bind. fold (scopes gs).
    rewrite IH, scope_exec. cbn [bodies trace fst snd].
    by rewrite app_assoc.
Qed.

Lemma guard_calls_app (t1 t2 : list event) :
  guard_calls (t1 ++ t2) = guard_calls t1 ++ guard_calls t2.
Proof. apply omap_app. Qed.

Lemma guard_calls_unreleased (gs : list (bound_object.t * nat)) :
  guard_calls (unreleased gs)
  = map (λ g, bound_object.notify g.1) (filter (λ g, g.2 = 0) gs).
Proof.
  induction gs as [|[b [|n]] gs IH]; [done| |].
  - rewrite filter_cons_True by done. cbn [unreleased map fst].
    change (guard_calls (guard_notified (bound_object.notify b) :: unreleased gs))
      with (bound_object.notify b :: guard_calls (unreleased gs)).
    by rewrite IH.
  - rewrite filter_cons_False by (simpl; lia). cbn [unreleased]. done.
Qed.

(** X15: over any run of guard lifetimes, the calls the guards make are
    exactly [binding.disconnect(binding.obj, binding.data)] of the guards
    that were never released, one call each, in the order of destruction; a
    run in which every guard was released adds no call of a guard. *)
Theorem guards_notify_exactly_the_unreleased
    (gs : list (bound_object.t * nat)) (w : world) :
  guard_calls (trace (exec (scopes gs) w))
  = guard_calls (trace w)
    ++ map (λ g, Call (bound_object.disconnect g.1) (bound_object.obj g.1)
                      (bound_object.data g.1))
           (filter (λ g, g.2 = 0) gs)
  ∧ (Forall (λ g, g.2 ≠ 0) gs →
     guard_calls (trace (exec (scopes gs) w)) = guard_calls (trace w))
  ∧ length (guard_calls (trace (exec (scopes gs) w)))
    = length (guard_calls (trace w)) + length (filter (λ g, g.2 = 0) gs).
Proof.
  assert (E : guard_calls (trace (exec (scopes gs) w))
              = guard_calls (trace w)
                ++ map (λ g, bound_object.notify g.1) (filter (λ g, g.2 = 0) gs)).
  { rewrite scopes_exec. cbn [trace].
    by rewrite guard_calls_app, guard_calls_unreleased. }
  split; [exact E|]. split.
  - intros H. rewrite E.
    assert (filter (λ g : bound_object.t * nat, g.2 = 0) gs = []) as ->.
    { clear E. induction H as [|g gs Hg _ IH]; [done|].
      rewrite filter_cons_False by done. exact IH. }
    simpl. by rewrite app_nil_r.
  - by rewrite E, length_app, length_map.
Qed.

Lemma guards_notify_exactly_the_unreleased_witness :
  let b1 := bound_object.mk 20%Z 21%Z 22%Z in
  let b2 := bound_object.mk 30%Z 31%Z 32%Z in
  Forall (λ g : bound_object.t * nat, g.2 ≠ 0) [(b1, 1); (b2, 3)]
  ∧ guard_calls (trace (exec (scopes [(b1, 1); (b2, 3)]) example_world)) = []
  ∧ guard_calls (trace (exec (scopes [(b1, 0); (b2, 2); (b2, 0)]) example_world))
    = [Call 22%Z 20%Z 21%Z; Call 32%Z 30%Z 31%Z].
Proof.
  intros b1 b2.
  assert (H : Forall (λ g : bound_object.t * nat, g.2 ≠ 0) [(b1, 1); (b2, 3)]).
  { repeat constructor; simpl; lia. }
  destruct (guards_notify_exactly_the_unreleased [(b1, 1); (b2, 3)] example_world)
    as (_ & R & _).
  destruct (guards_notify_exactly_the_unreleased
              [(b1, 0); (b2, 2); (b2, 0)] example_world) as (E & _ & _).
  split; [exact H|]. split; [exact (R H)|].
  rewrite E. reflexivity.
Defined.
